(** * analyze_colors.py: a shallow embedding and its verified properties

    The program reads colour names out of an HTML table, normalises their
    spelling, counts them, derives a few statistics from the counts, stores
    the counts in PostgreSQL and finally runs three small exercises.

    Conventions of the embedding.
    - A Python [str] is a Rocq [string], and the alphabet of the model is
      ASCII: on the code points 0 to 127 [is_space] and [upper] below are
      Python's [str.isspace] and [str.upper].  Python's further white space
      (U+0085, U+00A0, ...) and letters (an accented letter has an upper
      case too) lie outside this alphabet; the model leaves the characters
      above 127 alone.
    - A Python [int] is a [Z] (unbounded).  A recursion runs inside a call
      stack of bounded depth: [recursive_search_run] takes the number of
      frames left and raises [RecursionError] when they run out.
    - A [Counter] is a [dict]: an insertion-ordered table with pairwise
      distinct keys.  It is a [list (string * Z)] in insertion order; the
      invariant is [counter_wf].
    - True division of integers and the float arithmetic that follows are
      idealised as exact rationals ([Q]); [py_truediv] is the division that
      raises [ZeroDivisionError] on a divisor 0.
    - The PostgreSQL driver is an explicit state-and-exception monad over a
      [world] that holds the server's committed tables, the open session,
      the driver calls made so far, the text printed so far, a fault
      oracle deciding which driver call raises, and the wording of the
      exceptions.  What the server refuses whatever the environment (a
      missing database, a count outside the [INT] column, ...) is part of
      the driver's definitions, not of the oracle.
    - The regular expression of [extract_color_rows] matches in at most one
      way at a given position; it is embedded as the matcher
      [Html.match_row], and [re.findall] as the scan [Html.findall_rows].
    - The draws of [random.choice] are read from a stream of bits given as
      an argument. *)

From stdpp Require Import base list gmap strings.
From Stdlib Require Import ZArith QArith Qabs Lia Ascii String.
From Stdlib Require Sorted.
From Equations Require Import Equations.

Open Scope Z_scope.

(** * Text primitives *)

Module Text.

(** [str.isspace], which is also the class [\s] of [re], on the code
    points 0 to 127: TAB, LF, VT, FF, CR, FS, GS, RS, US and space.  The
    white space that Python knows above 127 (U+0085, U+00A0 and further
    Unicode spaces) is outside the alphabet of the model. *)
Definition is_space (c : ascii) : bool :=
  let n := nat_of_ascii c in
  ((9 <=? n) && (n <=? 13) || (28 <=? n) && (n <=? 32))%nat.

(** [str.upper] on one character of the code points 0 to 127: the letters
    a to z move to A to Z, everything else stays.  Python also maps the
    letters above 127 (an accented small letter to its capital), which are
    outside the alphabet of the model. *)
Definition upper_char (c : ascii) : ascii :=
  let n := nat_of_ascii c in
  if ((97 <=? n) && (n <=? 122))%nat then ascii_of_nat (n - 32) else c.

Fixpoint upper (s : string) : string :=
  match s with
  | EmptyString => EmptyString
  | String c s' => String (upper_char c) (upper s')
  end.

Fixpoint lstrip (s : string) : string :=
  match s with
  | EmptyString => EmptyString
  | String c s' => if is_space c then lstrip s' else s
  end.

Fixpoint rstrip (s : string) : string :=
  match s with
  | EmptyString => EmptyString
  | String c s' =>
      match rstrip s' with
      | EmptyString => if is_space c then EmptyString else String c EmptyString
      | r => String c r
      end
  end.

(** [s.strip()]: the slice between the first and the last non-space. *)
Definition strip (s : string) : string := rstrip (lstrip s).

(** Truth value of a [str]: non-empty. *)
Definition truthy (s : string) : bool :=
  match s with EmptyString => false | _ => true end.

Definition is_comma (c : ascii) : bool := Ascii.eqb c ","%char.

(** Prepend a character to the piece under construction. *)
Definition push_char (c : ascii) (ps : list string) : list string :=
  match ps with
  | [] => [String c EmptyString]
  | p :: ps' => String c p :: ps'
  end.

(** [re.split(r',\s*', s)].  A match is a comma together with all the white
    space after it ([\s*] is greedy and nothing follows it in the pattern),
    matches are found left to right, and the pieces between them are
    returned, empty ones included.  [skip] holds while the scan is inside
    the white space of a match. *)
Fixpoint re_split_from (skip : bool) (s : string) : list string :=
  match s with
  | EmptyString => [EmptyString]
  | String c s' =>
      if skip && is_space c then re_split_from true s'
      else if is_comma c then EmptyString :: re_split_from true s'
      else push_char c (re_split_from false s')
  end.

Definition re_split_comma_ws (s : string) : list string := re_split_from false s.

(** [s.split(',')]: the pieces between commas, nothing else removed. *)
Fixpoint split_comma (s : string) : list string :=
  match s with
  | EmptyString => [EmptyString]
  | String c s' =>
      if is_comma c then EmptyString :: split_comma s'
      else push_char c (split_comma s')
  end.

End Text.

Import Text.

(** * Parsing and normalisation *)

(** The [corrections] dictionary of [normalize_color]. *)
Definition corrections : list (string * string) :=
  [("BLEW", "BLUE"); ("BLUW", "BLUE"); ("BLU", "BLUE")]%string.

(** [d.get(k, default)] on a literal dictionary. *)
Fixpoint dict_get {V : Type} (d : list (string * V)) (k : string) (default : V) : V :=
  match d with
  | [] => default
  | (k', v) :: d' => if String.eqb k k' then v else dict_get d' k default
  end.

Definition normalize_color (name : string) : string :=
  let s := upper (strip name) in
  dict_get corrections s s.

(** The list [parts] built for one row in [flatten_colors]. *)
Definition row_parts (line : string) : list string :=
  map strip (List.filter (fun p => truthy (strip p)) (re_split_comma_ws line)).

Definition flatten_colors (rows : list string) : list string :=
  fold_left (fun flat line => flat ++ map normalize_color (row_parts line)) rows [].

(** * The frequency table *)

(** [Counter]: keys in order of first insertion, each with its count. *)
Definition counter : Type := list (string * Z).

Definition counter_wf (freq : counter) : Prop := NoDup (map fst freq).

(** [mapping[elem] = mapping.get(elem, 0) + 1]: an existing key keeps its
    position, a new key goes to the end. *)
Fixpoint counter_incr (freq : counter) (elem : string) : counter :=
  match freq with
  | [] => [(elem, 1)]
  | (k, n) :: freq' =>
      if String.eqb elem k then (k, n + 1) :: freq'
      else (k, n) :: counter_incr freq' elem
  end.

(** [Counter(iterable)]. *)
Definition Counter (flat : list string) : counter := fold_left counter_incr flat [].

(** [freq.get(k, 0)]. *)
Definition counter_get (freq : counter) (k : string) : Z := dict_get freq k 0.

Definition keys (freq : counter) : list string := map fst freq.
Definition values (freq : counter) : list Z := map snd freq.

(** * Statistics helpers *)

(** The built-in [sum] of integers: a left fold from 0. *)
Definition py_sum (xs : list Z) : Z := fold_left Z.add xs 0.

(** The built-in [max] of a non-empty sequence: the first item, replaced
    whenever a later item is strictly greater. *)
Definition py_max (x : Z) (xs : list Z) : Z :=
  fold_left (fun m v => if m <? v then v else m) xs x.

Definition mode_colors (freq : counter) : list string * Z :=
  match values freq with
  | [] => ([], 0)
  | v :: vs =>
      let maxf := py_max v vs in
      (map fst (List.filter (fun cf => snd cf =? maxf) freq), maxf)
  end.

(** [sum] of rationals, again a left fold from 0. *)
Definition py_sumQ (xs : list Q) : Q := fold_left Qplus xs 0%Q.

Definition len {A : Type} (l : list A) : Z := Z.of_nat (List.length l).

Definition variance_of_frequencies (freq : counter) : Q :=
  match freq with
  | [] => 0%Q
  | _ =>
      let vals := values freq in
      let meanv := (inject_Z (py_sum vals) / inject_Z (len vals))%Q in
      (py_sumQ (map (fun x => (inject_Z x - meanv) ^ 2) vals) / inject_Z (len vals))%Q
  end.

(** * The runner, up to the figures it reports *)

Record figures : Type := Figures {
  fig_freq : counter;
  fig_total : Z;
  fig_modes : list string * Z;
  fig_var_freq : Q;
  fig_red_count : Z;
  fig_prob_red : Q
}.

(** [main] after [extract_color_rows]: [None] is the early return taken when
    no row was parsed. *)
Definition main_figures (rows : list string) : option figures :=
  match rows with
  | [] => None
  | _ =>
      let flat := flatten_colors rows in
      let freq := Counter flat in
      let total := py_sum (values freq) in
      let red_count := counter_get freq "RED" in
      let prob_red :=
        if total >? 0 then (inject_Z red_count / inject_Z total)%Q else 0%Q in
      Some (Figures freq total (mode_colors freq) (variance_of_frequencies freq)
                    red_count prob_red)
  end.

(** * Exceptions *)

(** The exceptions the modelled code can meet; both are subclasses of
    Python's [Exception]. *)
Inductive exn : Type :=
| IndexError
| DbError (msg : string).

Definition exn_str (e : exn) : string :=
  match e with
  | IndexError => "list index out of range"
  | DbError msg => msg
  end.

(** * The three exercises *)

(** [lst[index]]: a negative index counts from the end, anything outside
    the list raises [IndexError]. *)
Definition list_item (lst : list Z) (index : Z) : exn + Z :=
  let i := if index <? 0 then index + len lst else index in
  if (0 <=? i) && (i <? len lst) then
    match lst !! Z.to_nat i with
    | Some x => inr x
    | None => inl IndexError
    end
  else inl IndexError.

(** What the recursion computes when the interpreter's call stack is deep
    enough; [recursive_search_run] below is the same recursion inside a
    bounded stack.  The recursion is on [index + 1]; what decreases is the
    distance from [index] to the end of the list. *)
Equations? recursive_search (lst : list Z) (target index : Z) : exn + Z
  by wf (Z.to_nat (len lst - index)) lt :=
  recursive_search lst target index with Z_ge_dec index (len lst) => {
    | left _ => inr (-1);
    | right _ with list_item lst index => {
        | inl e => inl e;
        | inr x => if x =? target then inr index
                   else recursive_search lst target (index + 1) } }.
Proof. lia. Qed.

(** Outcome of a call made inside a bounded call stack: the call returns,
    or its body raises, or the stack runs out. *)
Inductive search_outcome : Type :=
| Returns (r : Z)
| Raises (e : exn)
| RecursionError.

(** [recursive_search] as the interpreter runs it.  Every call takes one
    frame of the call stack, the recursive call is made from inside the
    calling frame, and a call for which no frame is left raises
    [RecursionError].  [frames] is the number of nested calls still
    allowed when the search is called: the recursion limit (1000 unless
    changed with [sys.setrecursionlimit]) minus the depth of the caller. *)
Fixpoint recursive_search_run (frames : nat) (lst : list Z) (target index : Z)
  : search_outcome :=
  match frames with
  | O => RecursionError
  | S frames' =>
      if Z_ge_dec index (len lst) then Returns (-1)
      else match list_item lst index with
           | inl e => Raises e
           | inr x => if x =? target then Returns index
                      else recursive_search_run frames' lst target (index + 1)
           end
  end.

(** The loop of [sum_first_n_fibonacci] after [k] more iterations. *)
Fixpoint fib_loop (k : nat) (a b total : Z) : Z :=
  match k with
  | O => total
  | S k' => fib_loop k' b (a + b) (total + a)
  end.

(** [range(n)] is empty for [n <= 0]. *)
Definition sum_first_n_fibonacci (n : Z) : Z := fib_loop (Z.to_nat n) 0 1 0.

(** The Fibonacci sequence as the specification words it. *)
Fixpoint fib (k : nat) : Z :=
  match k with
  | O => 0
  | S k' => match k' with
            | O => 1
            | S k'' => fib k' + fib k''
            end
  end.

(** [F_0 + F_1 + ... + F_(n-1)]. *)
Fixpoint fib_prefix_sum (n : nat) : Z :=
  match n with
  | O => 0
  | S n' => fib_prefix_sum n' + fib n'
  end.

(** * The PostgreSQL driver and [save_to_postgres] *)

Module Db.

Record conn_params : Type := ConnParams {
  cp_dbname : string;
  cp_user : string;
  cp_password : string;
  cp_host : string;
  cp_port : string
}.

(** The two SQL statements of the program.  [Upsert c n] is
    [INSERT ... VALUES (c, n) ON CONFLICT (color) DO UPDATE SET frequency =
    EXCLUDED.frequency]. *)
Inductive stmt : Type :=
| CreateTableIfNotExists
| Upsert (color : string) (frequency : Z).

Inductive call : Type :=
| Connect (p : conn_params)
| OpenCursor
| Execute (q : stmt)
| Commit
| CloseCursor
| CloseConn.

(** A database is named by host, port and database name. *)
Definition db_key : Type := (string * string * string)%type.

(** The database a connection reaches: an empty [dbname] stands for the
    database named after the user. *)
Definition database_name (p : conn_params) : string :=
  match cp_dbname p with
  | EmptyString => cp_user p
  | name => name
  end.

Definition key_of (p : conn_params) : db_key := (cp_host p, cp_port p, database_name p).

(** What the server or the driver refuses whatever the environment:
    a database that does not exist, a connection that is closed, a table
    that does not exist, a number outside the 32 bits of an [INT] column,
    a text with a NUL character. *)
Inductive refusal : Type :=
| NoSuchDatabase (k : db_key)
| NoConnection
| NoSuchTable
| IntegerOutOfRange (n : Z)
| NulInText (s : string).

(** The values of an [INT] column. *)
Definition int4 (n : Z) : bool := (-2147483648 <=? n) && (n <=? 2147483647).

(** Whether a text holds the character NUL, which the driver refuses to
    send. *)
Fixpoint has_nul (s : string) : bool :=
  match s with
  | EmptyString => false
  | String c s' => Ascii.eqb c "000"%char || has_nul s'
  end.

(** - [databases]: the committed state; for each database, the table
      [color_frequencies] when it exists, as a map from its primary key
      [color] to [frequency];
    - [session]: the connection in use and the table as its uncommitted
      transaction sees it;
    - [calls]: the driver calls made so far;
    - [stdout]: the lines printed so far;
    - [faults]: the environment; given the driver calls up to and including
      the current one it says whether that call raises, and with which
      message (refused connection, bad credentials, lost connection,
      a table of another shape, ...);
    - [wording]: the text of the exception raised for a [refusal]; it
      is the server's or the driver's and differs between versions. *)
Record world : Type := World {
  databases : gmap db_key (option (gmap string Z));
  session : option (db_key * option (gmap string Z));
  calls : list call;
  stdout : list string;
  faults : list call -> option string;
  wording : refusal -> string
}.

Definition set_databases (d : gmap db_key (option (gmap string Z))) (w : world) : world :=
  World d (session w) (calls w) (stdout w) (faults w) (wording w).
Definition set_session (s : option (db_key * option (gmap string Z))) (w : world) : world :=
  World (databases w) s (calls w) (stdout w) (faults w) (wording w).
Definition set_calls (c : list call) (w : world) : world :=
  World (databases w) (session w) c (stdout w) (faults w) (wording w).
Definition set_stdout (o : list string) (w : world) : world :=
  World (databases w) (session w) (calls w) o (faults w) (wording w).

(** The exception raised for a refusal. *)
Definition refused (w : world) (r : refusal) : exn := DbError (wording w r).

(** A computation either returns or raises, and changes the world. *)
Definition M (A : Type) : Type := world -> (exn + A) * world.

Definition ret {A : Type} (a : A) : M A := fun w => (inr a, w).
Definition raise {A : Type} (e : exn) : M A := fun w => (inl e, w).
Definition bind {A B : Type} (c : M A) (k : A -> M B) : M B :=
  fun w => match c w with
           | (inr a, w') => k a w'
           | (inl e, w') => (inl e, w')
           end.

(** [try: body except Exception as e: handler(e)]. *)
Definition try_except {A : Type} (body : M A) (handler : exn -> M A) : M A :=
  fun w => match body w with
           | (inr a, w') => (inr a, w')
           | (inl e, w') => handler e w'
           end.

Declare Scope db_scope.
Delimit Scope db_scope with db.
Notation "'let*' x ':=' c 'in' k" := (bind c (fun x => k))
  (at level 10, x name, c at level 100, k at level 200) : db_scope.
Notation "c1 >> c2" := (bind c1 (fun _ => c2))
  (at level 90, right associativity) : db_scope.
Open Scope db_scope.

Definition get_world : M world := fun w => (inr w, w).
Definition update (f : world -> world) : M unit := fun w => (inr tt, f w).

(** Every driver call is logged, then the environment decides whether it
    raises. *)
Definition driver (c : call) : M unit :=
  fun w =>
    let w' := set_calls (calls w ++ [c]) w in
    match faults w (calls w') with
    | Some msg => (inl (DbError msg), w')
    | None => (inr tt, w')
    end.

(** [psycopg2.connect(...)]. *)
Definition connect (p : conn_params) : M unit :=
  driver (Connect p) >>
  let* w := get_world in
  match databases w !! key_of p with
  | None => raise (refused w (NoSuchDatabase (key_of p)))
  | Some t => update (set_session (Some (key_of p, t)))
  end.

Definition cursor : M unit := driver OpenCursor.

(** [cur.execute(q)], inside the transaction of the session.  The driver
    refuses a parameter with a NUL character before it sends anything; the
    server refuses a statement on a table that does not exist, and a
    [frequency] that does not fit the [INT] column. *)
Definition execute (q : stmt) : M unit :=
  driver (Execute q) >>
  let* w := get_world in
  match session w with
  | None => raise (refused w NoConnection)
  | Some (k, t) =>
      match q with
      | CreateTableIfNotExists =>
          update (set_session (Some (k, Some (default ∅ t))))
      | Upsert color frequency =>
          if has_nul color then raise (refused w (NulInText color))
          else
            match t with
            | None => raise (refused w NoSuchTable)
            | Some rows =>
                if int4 frequency then
                  update (set_session (Some (k, Some (<[color := frequency]> rows))))
                else raise (refused w (IntegerOutOfRange frequency))
            end
      end
  end.

(** [conn.commit()]: the transaction's view becomes the committed state. *)
Definition commit : M unit :=
  driver Commit >>
  let* w := get_world in
  match session w with
  | None => raise (refused w NoConnection)
  | Some (k, t) => update (fun w => set_databases (<[k := t]> (databases w)) w)
  end.

Definition cursor_close : M unit := driver CloseCursor.

Definition conn_close : M unit := driver CloseConn >> update (set_session None).

Definition print (line : string) : M unit :=
  update (fun w => set_stdout (stdout w ++ [line]) w).

(** [for x in l: body(x)]. *)
Fixpoint for_each {A : Type} (l : list A) (body : A -> M unit) : M unit :=
  match l with
  | [] => ret tt
  | x :: l' => body x >> for_each l' body
  end.

Definition success_message : string :=
  "✅ Colors successfully saved to PostgreSQL table 'color_frequencies'.".

Definition error_message (e : exn) : string :=
  ("Error saving to PostgreSQL: " +:+ exn_str e)%string.

(** The connection parameters the code passes to [psycopg2.connect]. *)
Definition connection_used (dbname : string) : conn_params :=
  ConnParams dbname "postgres" "" "localhost" "5432".

(** The body of the [try] block. *)
Definition save_body (freq : counter) (dbname : string) : M unit :=
  connect (connection_used dbname) >>
  cursor >>
  execute CreateTableIfNotExists >>
  for_each freq (fun '(color, count) => execute (Upsert color count)) >>
  commit >>
  cursor_close >>
  conn_close >>
  print success_message.

Definition save_to_postgres (freq : counter)
    (dbname user password host port : string) : M unit :=
  try_except (save_body freq dbname) (fun e => print (error_message e)).

(** The table [color_frequencies] of a database, as a map; an absent table
    has no rows. *)
Definition color_frequencies (w : world) (k : db_key) : gmap string Z :=
  match databases w !! k with
  | Some (Some rows) => rows
  | _ => ∅
  end.

(** Short texts for the refusals, for the example worlds. *)
Definition plain_wording (r : refusal) : string :=
  match r with
  | NoSuchDatabase _ => "database does not exist"
  | NoConnection => "connection already closed"
  | NoSuchTable => "relation does not exist"
  | IntegerOutOfRange _ => "integer out of range"
  | NulInText _ => "NUL character in text"
  end.

(** A world without faults, with one empty database on the local server. *)
Definition quiet_world (dbname : string) (t : option (gmap string Z)) : world :=
  World {[ ("localhost", "5432", dbname)%string := t ]} None [] [] (fun _ => None)
        plain_wording.


(** The rows after the loop of upserts. *)
Definition upsert_all (freq : counter) (rows : gmap string Z) : gmap string Z :=
  fold_left (fun m '(color, count) => <[color := count]> m) freq rows.

(** The driver calls of a run of the [try] block in which nothing raises. *)
Definition intended_calls (freq : counter) (dbname : string) : list call :=
  [Connect (connection_used dbname); OpenCursor; Execute CreateTableIfNotExists]
  ++ map (fun '(color, count) => Execute (Upsert color count)) freq
  ++ [Commit; CloseCursor; CloseConn].

Definition returned {A : Type} (r : exn + A) : Prop :=
  match r with inr _ => True | inl _ => False end.

(** [c] makes the driver calls [l], in order, stopping early only when it
    raises; it leaves the environment alone; and when it returns, the
    environment let every one of the calls through. *)
Definition traced {A : Type} (c : M A) (l : list call) : Prop :=
  forall w,
    faults (snd (c w)) = faults w /\
    exists cs, cs `prefix_of` l /\ calls (snd (c w)) = calls w ++ cs /\
      (returned (fst (c w)) ->
       cs = l /\
       forall n, (0 < n <= List.length l)%nat -> faults w (calls w ++ take n l) = None).

(** [c] prints nothing. *)
Definition silent {A : Type} (c : M A) : Prop :=
  forall w, stdout (snd (c w)) = stdout w.

(** The environment made one of the driver calls issued between [w] and
    [w'] raise. *)
Definition some_call_faulted (w w' : world) : Prop :=
  exists n, (List.length (calls w) < n <= List.length (calls w'))%nat /\
            faults w (take n (calls w')) <> None.

(** [c] prints [line] as its last act when it returns, and nothing when it
    raises. *)
Definition announces (c : M unit) (line : string) : Prop :=
  forall w,
    stdout (snd (c w)) =
    match fst (c w) with
    | inl _ => stdout w
    | inr _ => stdout w ++ [line]
    end.

(** A server with one database, holding two rows, and no faults. *)
Definition demo_world : world :=
  quiet_world "colors_db" (Some {[ "RED"%string := 7; "PINK"%string := 1 ]}).

(** The same server behind an environment that makes the third driver
    call raise. *)
Definition flaky_world : world :=
  World (databases demo_world) None [] []
        (fun cs => if (List.length cs =? 3)%nat then Some "connection lost"%string else None)
        plain_wording.

End Db.

(** * Notions of the specification *)

(** The three known misspellings. *)
Definition misspellings : list string := ["BLEW"; "BLUW"; "BLU"]%string.

(** The fragments of a row: the row split on commas, without the fragments
    that hold no text. *)
Definition fragments (line : string) : list string :=
  List.filter (fun p => truthy (strip p)) (split_comma line).

(** All observations of the parsed rows. *)
Definition observations (rows : list string) : list string :=
  flat_map fragments rows.

(** The number of observations whose normalisation is [C]. *)
Definition occurrences (C : string) (rows : list string) : Z :=
  len (List.filter (fun f => String.eqb (normalize_color f) C) (observations rows)).

(** Sum of a finite family of rationals. *)
Fixpoint sumQ (xs : list Q) : Q :=
  match xs with
  | [] => 0%Q
  | x :: xs' => (x + sumQ xs')%Q
  end.

Definition mean_count (xs : list Z) : Q :=
  (sumQ (map inject_Z xs) / inject_Z (len xs))%Q.

(** Population variance: the mean of the squared deviations from the mean. *)
Definition population_variance (xs : list Z) : Q :=
  (sumQ (map (fun x => (inject_Z x - mean_count xs) * (inject_Z x - mean_count xs)) xs)
   / inject_Z (len xs))%Q.

(** Every count of a table built by counting is at least 1. *)
Definition counts_positive (freq : counter) : Prop := Forall (fun v => 1 <= v) (values freq).

(** [m] is the maximum count appearing in the table. *)
Definition is_max_count (freq : counter) (m : Z) : Prop :=
  (exists c, In (c, m) freq) /\ (forall c f, In (c, f) freq -> f <= m).

(** [recursive_search] with the depth of the recursion bounded by [fuel]:
    [None] when [fuel] calls were not enough. *)
Fixpoint recursive_search_fuel (fuel : nat) (lst : list Z) (target index : Z)
  : option (exn + Z) :=
  match fuel with
  | O => None
  | S fuel' =>
      if Z_ge_dec index (len lst) then Some (inr (-1))
      else match list_item lst index with
           | inl e => Some (inl e)
           | inr x => if x =? target then Some (inr index)
                      else recursive_search_fuel fuel' lst target (index + 1)
           end
  end.

(** The smallest position of [target] in [lst], if any. *)
Fixpoint first_index (target : Z) (lst : list Z) : option nat :=
  match lst with
  | [] => None
  | x :: lst' => if x =? target then Some O else S <$> first_index target lst'
  end.

(** * The remaining statistics helpers *)

(** [a < b] on rationals, as a test. *)
Definition Qlt_bool (a b : Q) : bool := negb (Qle_bool b a).

(** One iteration of the loop of [mean_color]; the state is [min_diff]
    ([None] at first) and [closest]. *)
Definition mean_step (meanv : Q) (st : option Q * list string) (cf : string * Z)
  : option Q * list string :=
  let diff := Qabs (inject_Z (snd cf) - meanv) in
  match fst st with
  | None => (Some diff, [fst cf])
  | Some min_diff =>
      if Qlt_bool diff min_diff then (Some diff, [fst cf])
      else if Qeq_bool diff min_diff then (Some min_diff, snd st ++ [fst cf])
      else st
  end.

Definition mean_color (freq : counter) : Q * list string :=
  match freq with
  | [] => (0%Q, [])
  | _ =>
      let vals := values freq in
      let meanv := (inject_Z (py_sum vals) / inject_Z (len vals))%Q in
      (meanv, snd (fold_left (mean_step meanv) freq (None, [])))
  end.

(** Distance of an entry's count from the mean. *)
Definition mean_dist (meanv : Q) (cf : string * Z) : Q :=
  Qabs (inject_Z (snd cf) - meanv).

(** The loop state of [mean_color] after the entries [p]: the least
    distance met, and the colours of [p] at that distance, in order. *)
Definition mean_settled (meanv : Q) (p : counter) (st : option Q * list string) : Prop :=
  exists d,
    fst st = Some d /\
    (exists cf, In cf p /\ Qeq (mean_dist meanv cf) d) /\
    (forall cf, In cf p -> Qle d (mean_dist meanv cf)) /\
    snd st = map fst (List.filter (fun cf => Qeq_bool (mean_dist meanv cf) d) p).

(** [sorted(items, key=lambda kv: kv[1])].  The sort is stable, which fixes
    its result: ascending counts, equal counts in their original order.
    An item is inserted in front of the first item whose count is not
    smaller. *)
Fixpoint insert_by_count (kv : string * Z) (items : list (string * Z))
  : list (string * Z) :=
  match items with
  | [] => [kv]
  | kv' :: items' =>
      if snd kv <=? snd kv' then kv :: items
      else kv' :: insert_by_count kv items'
  end.

Definition sorted_by_count (freq : counter) : list (string * Z) :=
  fold_right insert_by_count [] freq.

(** [l[i]] for any list: a negative index counts from the end. *)
Definition py_index {A : Type} (l : list A) (i : Z) : exn + A :=
  let j := if i <? 0 then i + len l else i in
  if (0 <=? j) && (j <? len l) then
    match l !! Z.to_nat j with
    | Some x => inr x
    | None => inl IndexError
    end
  else inl IndexError.

Definition median_color (freq : counter) : exn + list string :=
  match freq with
  | [] => inr []
  | _ =>
      let items := sorted_by_count freq in
      let n := len items in
      if n mod 2 =? 1 then
        match py_index items (n / 2) with
        | inl e => inl e
        | inr kv => inr [fst kv]
        end
      else
        match py_index items (n / 2 - 1) with
        | inl e => inl e
        | inr kv1 =>
            match py_index items (n / 2) with
            | inl e => inl e
            | inr kv2 => inr [fst kv1; fst kv2]
            end
        end
  end.

(** * Division as Python performs it *)

Inductive zero_division_error : Type := ZeroDivisionError.

(** [a / b] with an integer divisor: a divisor 0 raises
    [ZeroDivisionError]. *)
Definition py_truediv (a : Q) (b : Z) : zero_division_error + Q :=
  if b =? 0 then inl ZeroDivisionError else inr (a / inject_Z b)%Q.

(** [mean_color] and [variance_of_frequencies] with every division
    performed by [py_truediv]. *)
Definition mean_color_run (freq : counter) : zero_division_error + Q * list string :=
  match freq with
  | [] => inr (0%Q, [])
  | _ =>
      let vals := values freq in
      match py_truediv (inject_Z (py_sum vals)) (len vals) with
      | inl e => inl e
      | inr meanv => inr (meanv, snd (fold_left (mean_step meanv) freq (None, [])))
      end
  end.

Definition variance_run (freq : counter) : zero_division_error + Q :=
  match freq with
  | [] => inr 0%Q
  | _ =>
      let vals := values freq in
      match py_truediv (inject_Z (py_sum vals)) (len vals) with
      | inl e => inl e
      | inr meanv =>
          py_truediv (py_sumQ (map (fun x => (inject_Z x - meanv) ^ 2)%Q vals)) (len vals)
      end
  end.

(** [main] after [extract_color_rows], in the order of the source and with
    every division performed by [py_truediv]: the run stops at the first
    division that raises.  [None] is the early return taken when no row was
    parsed.  [main_figures] above is the same run with the division of [Q],
    which cannot raise. *)
Definition main_run (rows : list string) : option (zero_division_error + figures) :=
  match rows with
  | [] => None
  | _ =>
      let flat := flatten_colors rows in
      let freq := Counter flat in
      let total := py_sum (values freq) in
      Some
        match mean_color_run freq with
        | inl e => inl e
        | inr _ =>
            let modes := mode_colors freq in
            match variance_run freq with
            | inl e => inl e
            | inr var_freq =>
                let red_count := counter_get freq "RED" in
                match (if total >? 0 then py_truediv (inject_Z red_count) total
                       else inr 0%Q) with
                | inl e => inl e
                | inr prob_red =>
                    inr (Figures freq total modes var_freq red_count prob_red)
                end
            end
        end
  end.

(** The number of entries of a table whose count satisfies [P]. *)
Definition count_where (P : Z -> bool) (freq : counter) : Z :=
  len (List.filter (fun kv => P (snd kv)) freq).

(** * The random bit string *)

Inductive value_error : Type := ValueError.

(** [str(random.choice([0, 1]))]. *)
Definition bit_str (b : bool) : string := if b then "1"%string else "0"%string.

(** The successive results of [random.choice([0, 1])] are read off [rng]:
    [rng i] tells whether the [i]-th draw is 1.  [range(n_digits)] is empty
    for [n_digits <= 0]. *)
Definition draws (rng : nat -> bool) (n_digits : Z) : list bool :=
  map rng (seq 0 (Z.to_nat n_digits)).

(** [''.join(parts)]. *)
Definition join (parts : list string) : string :=
  fold_right String.append EmptyString parts.

(** Value of a string of binary digits read from the left, on top of
    [acc]; [None] when a character is not a binary digit. *)
Fixpoint binary_value (acc : Z) (s : string) : option Z :=
  match s with
  | EmptyString => Some acc
  | String c s' =>
      if Ascii.eqb c "0"%char then binary_value (2 * acc) s'
      else if Ascii.eqb c "1"%char then binary_value (2 * acc + 1) s'
      else None
  end.

(** [int(s, 2)] on strings of binary digits: the empty string raises
    [ValueError].  A string with any other character (sign, prefix,
    underscore, white space) is outside this model, which answers [None]
    for it. *)
Definition int_base2 (s : string) : option (value_error + Z) :=
  match s with
  | EmptyString => Some (inl ValueError)
  | _ => inr <$> binary_value 0 s
  end.

Definition random_binary_to_decimal (rng : nat -> bool) (n_digits : Z)
  : option (value_error + string * Z) :=
  let bits := map bit_str (draws rng n_digits) in
  let bstr := join bits in
  match int_base2 bstr with
  | Some (inr v) => Some (inr (bstr, v))
  | Some (inl e) => Some (inl e)
  | None => None
  end.

(** The character of [s] at position [i], if any. *)
Fixpoint char_at (s : string) (i : nat) : option ascii :=
  match s, i with
  | EmptyString, _ => None
  | String c _, O => Some c
  | String _ s', S i' => char_at s' i'
  end.

(** The number whose binary digits, most significant first, are [bs]. *)
Definition bits_value (bs : list bool) : Z :=
  fold_left (fun a b => 2 * a + Z.b2z b) bs 0.

(** The digit character of a bit. *)
Definition bit_char (b : bool) : ascii := if b then "1"%char else "0"%char.

(** * Scraping the rows *)

Module Html.

(** Match of the literal [lit] at the start of [s] under [re.IGNORECASE]:
    the rest of [s] when it succeeds. *)
Fixpoint match_literal (lit s : string) : option string :=
  match lit, s with
  | EmptyString, _ => Some s
  | String a lit', String b s' =>
      if Ascii.eqb (upper_char a) (upper_char b) then match_literal lit' s' else None
  | String _ _, EmptyString => None
  end.

Definition is_lt (c : ascii) : bool := Ascii.eqb c "<"%char.

(** The longest prefix of [s] without ["<"], and what follows it. *)
Fixpoint until_lt (s : string) : string * string :=
  match s with
  | EmptyString => (EmptyString, EmptyString)
  | String c s' =>
      if is_lt c then (EmptyString, s)
      else (String c (fst (until_lt s')), snd (until_lt s'))
  end.

Fixpoint last_char (s : string) : string :=
  match s with
  | EmptyString => EmptyString
  | String c EmptyString => s
  | String _ s' => last_char s'
  end.

(** [\s*([^<]+)] in front of a literal that starts with ["<"].  The class
    [[^<]+] has to end where the next ["<"] is, so with [u] the text up to
    there: [\s*] takes the white space at the start of [u] and the group
    the rest; when [u] is white space only, [\s*] gives its last character
    back to the group; when [u] is empty there is no match. *)
Definition cell (s : string) : option (string * string) :=
  let u := fst (until_lt s) in
  match u with
  | EmptyString => None
  | _ =>
      Some (match lstrip u with
            | EmptyString => last_char u
            | v => v
            end, snd (until_lt s))
  end.

(** A match of the whole pattern
    [<tr>\s*<td>\s*[^<]+</td>\s*<td>\s*([^<]+)</td>\s*</tr>] at the start of
    [s]: the group and the rest of [s].  Every [\s*] stands in front of a
    literal that starts with ["<"], which is no white space, so it takes
    all the white space there is; the pattern matches in at most one way. *)
Definition match_row (s : string) : option (string * string) :=
  s1 ← match_literal "<tr>" s;
  s2 ← match_literal "<td>" (lstrip s1);
  c1 ← cell s2;
  s3 ← match_literal "</td>" (snd c1);
  s4 ← match_literal "<td>" (lstrip s3);
  c2 ← cell s4;
  s5 ← match_literal "</td>" (snd c2);
  s6 ← match_literal "</tr>" (lstrip s5);
  Some (fst c2, s6).

(** [re.findall]: the groups of the successive matches, found from left to
    right without overlap.  [skip] counts the characters that still belong
    to the match found last. *)
Fixpoint findall_rows (skip : nat) (s : string) : list string :=
  match s with
  | EmptyString => []
  | String _ s' =>
      match skip with
      | S k => findall_rows k s'
      | O =>
          match match_row s with
          | Some (row, rest) =>
              row :: findall_rows (String.length s' - String.length rest) s'
          | None => findall_rows 0 s'
          end
      end
  end.

Definition extract_color_rows (html : string) : list string := findall_rows 0 html.

(** Text that a table cell gives back unchanged: not empty, without ["<"],
    and not starting with white space. *)
Fixpoint no_lt (s : string) : bool :=
  match s with
  | EmptyString => true
  | String c s' => negb (is_lt c) && no_lt s'
  end.

Definition cell_text (s : string) : bool :=
  match s with
  | EmptyString => false
  | String c _ => negb (is_space c) && no_lt s
  end.

(** One table row with two cells, as the scraped file writes them. *)
Definition table_row (name colors : string) : string :=
  ("<tr><td>" +:+ name +:+ "</td><td>" +:+ colors +:+ "</td></tr>")%string.

End Html.

(** * Further notions about the driver *)

(** [c] never changes the committed state. *)
Definition keeps_databases {A : Type} (c : Db.M A) : Prop :=
  forall w, Db.databases (snd (c w)) = Db.databases w.

(** The environment lets every driver call through. *)
Definition fault_free (w : Db.world) : Prop :=
  forall cs, Db.faults w cs = None.

(** The committed state after all the upserts of [freq] in the database
    reached by [dbname]. *)
Definition saved (freq : counter) (dbname : string) (w : Db.world)
  : gmap Db.db_key (option (gmap string Z)) :=
  match Db.databases w !! Db.key_of (Db.connection_used dbname) with
  | Some t0 =>
      <[Db.key_of (Db.connection_used dbname) :=
          Some (Db.upsert_all freq (default ∅ t0))]> (Db.databases w)
  | None => Db.databases w
  end.

(** * Properties of the text primitives *)

Section TextFacts.

Lemma is_comma_spec (c : ascii) : is_comma c = true -> c = ","%char.
Proof. unfold is_comma. intros H. by apply Ascii.eqb_eq in H. Qed.

Lemma comma_not_space (c : ascii) : is_comma c = true -> is_space c = false.
Proof. intros H. apply is_comma_spec in H. subst c. reflexivity. Qed.

Lemma lstrip_idem (s : string) : lstrip (lstrip s) = lstrip s.
Proof.
  induction s as [|c s IH]; simpl; [reflexivity|].
  destruct (is_space c) eqn:E; [exact IH|]. simpl. by rewrite E.
Qed.

(** After [lstrip] a string is empty or starts with a visible character. *)
Lemma lstrip_head (s : string) :
  lstrip s = EmptyString \/
  exists c t, lstrip s = String c t /\ is_space c = false.
Proof.
  induction s as [|c s IH]; simpl; [by left|].
  destruct (is_space c) eqn:E; [exact IH|]. right. by exists c, s.
Qed.

(** [rstrip] keeps a visible first character in place. *)
Lemma rstrip_head (c : ascii) (t : string) :
  is_space c = false -> exists t', rstrip (String c t) = String c t'.
Proof.
  intros E. simpl. destruct (rstrip t); [|by eexists].
  rewrite E. by eexists.
Qed.

Lemma lstrip_strip (s : string) : lstrip (strip s) = strip s.
Proof.
  unfold strip. destruct (lstrip_head s) as [H|(c & t & H & E)]; rewrite H.
  - reflexivity.
  - destruct (rstrip_head c t E) as [t' Ht']. rewrite Ht'. simpl. by rewrite E.
Qed.

Lemma strip_idem (s : string) : strip (strip s) = strip s.
Proof. unfold strip at 1. rewrite lstrip_strip. unfold strip.
  generalize (lstrip s). clear s. intros s.
  induction s as [|c s IH]; simpl; [reflexivity|].
  destruct (rstrip s) as [|c' r] eqn:R.
  - destruct (is_space c) eqn:E; simpl; [reflexivity|]. by rewrite E.
  - simpl in *. rewrite IH. reflexivity.
Qed.

Lemma strip_lstrip (s : string) : strip (lstrip s) = strip s.
Proof. unfold strip. by rewrite lstrip_idem. Qed.

Lemma split_comma_nonempty (s : string) : split_comma s <> [].
Proof.
  induction s as [|c s IH]; simpl; [discriminate|].
  destruct (is_comma c); [discriminate|].
  destruct (split_comma s); [contradiction|discriminate].
Qed.

(** The regular-expression split yields the pieces of the plain split on
    commas, each piece after a comma without its leading white space. *)
Lemma re_split_from_split_comma (skip : bool) (s : string) :
  re_split_from skip s =
  match split_comma s with
  | [] => []
  | p :: ps => (if skip then lstrip p else p) :: map lstrip ps
  end.
Proof.
  revert skip. induction s as [|c s IH]; intros skip; simpl.
  - by destruct skip.
  - pose proof (split_comma_nonempty s) as Hne.
    destruct (is_comma c) eqn:Hc.
    + rewrite (comma_not_space c Hc), andb_false_r, IH.
      destruct (split_comma s) as [|p ps]; [contradiction|].
      by destruct skip.
    + destruct skip, (is_space c) eqn:Hs; simpl; rewrite IH;
        destruct (split_comma s) as [|p ps]; try contradiction; simpl;
        rewrite ?Hs; reflexivity.
Qed.

End TextFacts.

(** * Normalisation *)

Lemma normalize_color_strip (p : string) : normalize_color (strip p) = normalize_color p.
Proof. unfold normalize_color. by rewrite strip_idem. Qed.

Example normalize_color_blew : normalize_color "  bLeW "%string = "BLUE"%string.
Proof. reflexivity. Qed.

Example normalize_color_green : normalize_color " Green"%string = "GREEN"%string.
Proof. reflexivity. Qed.

(** C2, as stated, fails: a correctly spelled "blue" also comes out as
    "BLUE" although its stripped, upper-cased form is none of the three
    misspellings. *)
Lemma normalize_color_blue_without_misspelling :
  normalize_color "blue"%string = "BLUE"%string /\
  ~ In (upper (strip "blue"%string)) misspellings.
Proof.
  split; [reflexivity|].
  simpl. intros [H|[H|[H|[]]]]; discriminate.
Qed.

(** C2, amended: with [f] the stripped, upper-cased form of [s],
    [normalize_color s] is "BLUE" when [f] is one of the three misspellings
    and is [f] itself otherwise; hence it is "BLUE" exactly when [f] is a
    misspelling or already "BLUE".  Equal inputs give equal outputs. *)
Theorem normalize_color_spec (s : string) :
  let f := upper (strip s) in
  (In f misspellings -> normalize_color s = "BLUE"%string) /\
  (~ In f misspellings -> normalize_color s = f) /\
  (normalize_color s = "BLUE"%string <-> In f misspellings \/ f = "BLUE"%string) /\
  (forall s', s' = s -> normalize_color s' = normalize_color s).
Proof.
  cbv zeta. unfold normalize_color, corrections, misspellings. simpl.
  assert (D : forall s', s' = s -> upper (strip s') = upper (strip s))
    by (intros ? ->; reflexivity).
  revert D. generalize (upper (strip s)). intros f D.
  assert (L : forall s', s' = s ->
            (if String.eqb (upper (strip s')) "BLEW" then "BLUE"
             else if String.eqb (upper (strip s')) "BLUW" then "BLUE"
             else if String.eqb (upper (strip s')) "BLU" then "BLUE"
             else upper (strip s'))%string =
            (if String.eqb f "BLEW" then "BLUE"
             else if String.eqb f "BLUW" then "BLUE"
             else if String.eqb f "BLU" then "BLUE" else f)%string)
    by (intros s' E; by rewrite (D s' E)).
  split; [|split; [|split; [|exact L]]]; clear D L;
    destruct (String.eqb_spec f "BLEW"%string) as [E1|N1];
    destruct (String.eqb_spec f "BLUW"%string) as [E2|N2];
    destruct (String.eqb_spec f "BLU"%string) as [E3|N3];
    try discriminate; subst; try discriminate; intuition congruence.
Qed.

(** * Rows and fragments *)

Lemma filter_map_comm {A B : Type} (f : A -> B) (P : B -> bool) (l : list A) :
  List.filter P (map f l) = map f (List.filter (fun x => P (f x)) l).
Proof.
  induction l as [|x l IH]; simpl; [reflexivity|].
  destruct (P (f x)); simpl; by rewrite IH.
Qed.

(** The parts the code extracts from a row are the fragments of the
    specification, stripped. *)
Lemma row_parts_fragments (line : string) : row_parts line = map strip (fragments line).
Proof.
  unfold row_parts, fragments, re_split_comma_ws.
  rewrite re_split_from_split_comma.
  destruct (split_comma line) as [|p ps]; [reflexivity|].
  cbn [List.filter]. rewrite filter_map_comm.
  assert (Hf : List.filter (fun x => truthy (strip (lstrip x))) ps =
               List.filter (fun x => truthy (strip x)) ps).
  { apply List.filter_ext. intros x. by rewrite strip_lstrip. }
  rewrite Hf.
  assert (Hm : forall l, map strip (map lstrip l) = map strip l).
  { intros l. rewrite List.map_map. apply List.map_ext. intros x. apply strip_lstrip. }
  destruct (truthy (strip p)); cbn [map]; by rewrite Hm.
Qed.

Lemma fold_left_app_flat_map {A B : Type} (f : A -> list B) (l : list A) (acc : list B) :
  fold_left (fun flat x => flat ++ f x) l acc = acc ++ flat_map f l.
Proof.
  revert acc. induction l as [|x l IH]; intros acc; simpl.
  - by rewrite app_nil_r.
  - rewrite IH. by rewrite <- app_assoc.
Qed.

(** [flatten_colors] normalises every observation, in order. *)
Lemma flatten_colors_observations (rows : list string) :
  flatten_colors rows = map normalize_color (observations rows).
Proof.
  unfold flatten_colors, observations. rewrite fold_left_app_flat_map. simpl.
  induction rows as [|r rows IH]; simpl; [reflexivity|].
  rewrite List.map_app, IH, row_parts_fragments, List.map_map. f_equal.
  apply List.map_ext. intros p. apply normalize_color_strip.
Qed.

(** * The frequency table counts occurrences *)

Section CounterFacts.

Lemma counter_get_incr (freq : counter) (elem k : string) :
  counter_get (counter_incr freq elem) k =
  counter_get freq k + (if String.eqb elem k then 1 else 0).
Proof.
  unfold counter_get.
  induction freq as [|[k' n] freq IH]; simpl.
  - rewrite (String.eqb_sym k elem). destruct (String.eqb elem k); lia.
  - destruct (String.eqb_spec elem k') as [->|Hne]; simpl.
    + rewrite (String.eqb_sym k' k). destruct (String.eqb k k'); lia.
    + destruct (String.eqb_spec k k') as [->|Hk].
      * destruct (String.eqb_spec elem k'); [contradiction|lia].
      * apply IH.
Qed.

Lemma keys_incr (freq : counter) (elem k : string) :
  In k (keys (counter_incr freq elem)) <-> k = elem \/ In k (keys freq).
Proof.
  unfold keys. induction freq as [|[k' n] freq IH]; simpl.
  - intuition.
  - destruct (String.eqb_spec elem k') as [->|Hne]; simpl; intuition.
Qed.

Lemma counter_wf_incr (freq : counter) (elem : string) :
  counter_wf freq -> counter_wf (counter_incr freq elem).
Proof.
  unfold counter_wf. induction freq as [|[k' n] freq IH]; simpl; intros Hwf.
  - repeat constructor. intros H; inversion H.
  - apply NoDup_cons in Hwf as [Hnotin Hwf].
    destruct (String.eqb_spec elem k') as [->|Hne]; simpl.
    + by apply NoDup_cons.
    + apply NoDup_cons. split; [|by apply IH].
      rewrite list_elem_of_In. fold (keys (counter_incr freq elem)).
      rewrite keys_incr. intros [H|H]; [congruence|].
      apply Hnotin. by rewrite list_elem_of_In.
Qed.

Lemma py_sum_from (xs : list Z) (a : Z) : fold_left Z.add xs a = a + py_sum xs.
Proof.
  unfold py_sum. revert a. induction xs as [|x xs IH]; intros a; cbn [fold_left]; [lia|].
  rewrite (IH (a + x)), (IH (0 + x)). lia.
Qed.

Lemma py_sum_cons (x : Z) (xs : list Z) : py_sum (x :: xs) = x + py_sum xs.
Proof. unfold py_sum at 1. simpl. apply py_sum_from. Qed.

Lemma py_sum_values_incr (freq : counter) (elem : string) :
  py_sum (values (counter_incr freq elem)) = py_sum (values freq) + 1.
Proof.
  unfold values. induction freq as [|[k' n] freq IH]; simpl; [reflexivity|].
  destruct (String.eqb elem k'); simpl; rewrite !py_sum_cons; [lia|].
  rewrite IH. lia.
Qed.

Lemma counts_positive_incr (freq : counter) (elem : string) :
  counts_positive freq -> counts_positive (counter_incr freq elem).
Proof.
  unfold counts_positive, values.
  induction freq as [|[k' n] freq IH]; simpl; intros H.
  - repeat constructor. lia.
  - apply Forall_cons in H as [Hn H].
    destruct (String.eqb elem k'); simpl; apply Forall_cons; split; auto; lia.
Qed.

Lemma counter_get_bounds (freq : counter) (k : string) :
  counts_positive freq -> 0 <= counter_get freq k <= py_sum (values freq).
Proof.
  unfold counts_positive, counter_get, values.
  induction freq as [|[k' n] freq IH]; simpl; intros H.
  - unfold py_sum. simpl. lia.
  - apply Forall_cons in H as [Hn H]. specialize (IH H).
    rewrite py_sum_cons. simpl in Hn. destruct (String.eqb k k'); lia.
Qed.

Lemma counter_get_positive_key (freq : counter) (k : string) :
  counts_positive freq -> (In k (keys freq) <-> 0 < counter_get freq k).
Proof.
  unfold counts_positive, counter_get, values, keys.
  induction freq as [|[k' n] freq IH]; simpl; intros H.
  - split; [tauto|lia].
  - apply Forall_cons in H as [Hn H]. specialize (IH H). simpl in Hn.
    destruct (String.eqb_spec k k') as [->|Hne].
    + split; [lia|auto].
    + rewrite <- IH. intuition congruence.
Qed.

(** State of the table after counting [flat] on top of [freq]. *)
Lemma counting_invariant (flat : list string) (freq : counter) :
  counter_wf freq -> counts_positive freq ->
  let freq' := fold_left counter_incr flat freq in
  counter_wf freq' /\ counts_positive freq' /\
  py_sum (values freq') = py_sum (values freq) + len flat /\
  forall k, counter_get freq' k =
            counter_get freq k + len (List.filter (fun e => String.eqb e k) flat).
Proof.
  revert freq. induction flat as [|e flat IH]; intros freq Hwf Hpos; simpl.
  - unfold len; simpl. repeat split; auto; intros; lia.
  - destruct (IH (counter_incr freq e) (counter_wf_incr _ _ Hwf)
                 (counts_positive_incr _ _ Hpos)) as (W & P & S & G).
    repeat split; auto.
    + rewrite S, py_sum_values_incr. unfold len. simpl. lia.
    + intros k. rewrite G, counter_get_incr.
      destruct (String.eqb e k); unfold len; simpl; lia.
Qed.

Lemma Counter_invariant (flat : list string) :
  counter_wf (Counter flat) /\ counts_positive (Counter flat) /\
  py_sum (values (Counter flat)) = len flat /\
  forall k, counter_get (Counter flat) k = len (List.filter (fun e => String.eqb e k) flat).
Proof.
  assert (W0 : counter_wf []) by constructor.
  assert (P0 : counts_positive []) by constructor.
  destruct (counting_invariant flat [] W0 P0) as (W & P & S & G).
  repeat split; auto.
Qed.

Lemma occurrences_flat (C : string) (rows : list string) :
  len (List.filter (fun e => String.eqb e C) (flatten_colors rows)) = occurrences C rows.
Proof.
  rewrite flatten_colors_observations, filter_map_comm.
  unfold occurrences, len. by rewrite length_map.
Qed.

End CounterFacts.

(** C1: the table built by [flatten_colors] followed by [Counter] records,
    for every colour [C], the number of fragments of the rows (each row split
    on commas, fragments without text discarded) whose normalisation is
    [C]; a colour is a key of the table exactly when it occurs, and the keys
    are pairwise distinct. *)
Theorem frequency_table_counts_occurrences (rows : list string) (C : string) :
  counter_get (Counter (flatten_colors rows)) C = occurrences C rows /\
  (In C (keys (Counter (flatten_colors rows))) <-> 0 < occurrences C rows) /\
  counter_wf (Counter (flatten_colors rows)).
Proof.
  destruct (Counter_invariant (flatten_colors rows)) as (W & P & _ & G).
  split; [|split].
  - rewrite G. apply occurrences_flat.
  - rewrite (counter_get_positive_key _ _ P), G, occurrences_flat. reflexivity.
  - exact W.
Qed.

Example frequency_table_example :
  Counter (flatten_colors ["GREEN, YELLOW, blew ,"; " BLUE,green,,  "; " , "]%string)
  = [("GREEN", 2); ("YELLOW", 1); ("BLUE", 2)]%string.
Proof. reflexivity. Qed.

(** * The probability of RED *)

Lemma ratio_in_unit_interval (r t : Z) :
  0 <= r <= t -> 0 < t -> (0 <= inject_Z r / inject_Z t <= 1)%Q.
Proof.
  intros [Hr Hrt] Ht.
  assert (HtQ : (0 < inject_Z t)%Q) by (change 0%Q with (inject_Z 0); by rewrite <- Zlt_Qlt).
  split.
  - apply Qle_shift_div_l; [exact HtQ|]. rewrite Qmult_0_l.
    change 0%Q with (inject_Z 0). by rewrite <- Zle_Qle.
  - apply Qle_shift_div_r; [exact HtQ|]. rewrite Qmult_1_l. by rewrite <- Zle_Qle.
Qed.

(** C5: in [main] the probability reported for RED is the count of "RED" in
    the frequency table (0 when absent, which is the number of observations
    normalised to "RED") divided by the sum of all counts (the number of
    observations); it is 0 when that sum is zero, and it lies in [0, 1]. *)
Theorem prob_red_spec (rows : list string) (fg : figures) :
  main_figures rows = Some fg ->
  let red := counter_get (fig_freq fg) "RED" in
  let total := py_sum (values (fig_freq fg)) in
  fig_freq fg = Counter (flatten_colors rows) /\
  fig_red_count fg = red /\ fig_total fg = total /\
  red = occurrences "RED" rows /\ total = len (observations rows) /\
  (~ In "RED"%string (keys (fig_freq fg)) -> red = 0) /\
  (total <> 0 -> fig_prob_red fg = (inject_Z red / inject_Z total)%Q) /\
  (total = 0 -> fig_prob_red fg = 0%Q) /\
  (0 <= fig_prob_red fg <= 1)%Q.
Proof.
  intros Hmain red total.
  destruct rows as [|r rows]; [discriminate|].
  unfold main_figures in Hmain. injection Hmain as <-. cbn [fig_freq fig_red_count fig_total fig_prob_red] in *.
  set (rs := r :: rows) in *.
  destruct (Counter_invariant (flatten_colors rs)) as (W & P & S & G).
  pose proof (counter_get_bounds _ "RED"%string P) as B.
  pose proof (counter_get_positive_key _ "RED"%string P) as K.
  fold red total in B, K |- *.
  assert (Htot : total = len (observations rs)).
  { unfold total. rewrite S, flatten_colors_observations. unfold len. by rewrite length_map. }
  assert (Hnn : 0 <= total) by (rewrite Htot; unfold len; lia).
  repeat split; try reflexivity.
  - unfold red. rewrite G. apply occurrences_flat.
  - exact Htot.
  - intros Hnot. destruct (Z.eq_dec red 0) as [|Hne]; [assumption|].
    exfalso. apply Hnot, K. lia.
  - intros Hne. destruct (Z.gtb_spec total 0) as [_|Hle]; [reflexivity|lia].
  - intros Hz. destruct (Z.gtb_spec total 0) as [Hgt|_]; [lia|reflexivity].
  - destruct (Z.gtb_spec total 0) as [Hgt|_]; [|apply Qle_refl].
    apply ratio_in_unit_interval; lia.
  - destruct (Z.gtb_spec total 0) as [Hgt|_]; [|discriminate].
    apply ratio_in_unit_interval; lia.
Qed.

Lemma prob_red_spec_witness :
  exists fg, main_figures ["RED, blew"; "red ,GREEN"]%string = Some fg /\
             fig_prob_red fg = (2 # 4)%Q /\ (0 <= fig_prob_red fg <= 1)%Q.
Proof.
  eexists. split; [reflexivity|]. split; [reflexivity|].
  apply (prob_red_spec ["RED, blew"; "red ,GREEN"]%string _ eq_refl).
Defined.

Example prob_red_no_observation :
  fig_prob_red <$> main_figures [" , "]%string = Some 0%Q.
Proof. reflexivity. Qed.

(** * The mode *)

Section ModeFacts.

Lemma py_max_spec (xs : list Z) (x : Z) :
  (py_max x xs = x \/ In (py_max x xs) xs) /\
  x <= py_max x xs /\ (forall v, In v xs -> v <= py_max x xs).
Proof.
  unfold py_max. revert x. induction xs as [|y xs IH]; intros x; simpl.
  - split; [by left|]. split; [lia|]. intros v [].
  - destruct (IH (if x <? y then y else x)) as (A & B & C).
    destruct (Z.ltb_spec x y) as [Hlt|Hge].
    + split; [|split; [lia|]].
      * destruct A as [A|A]; [right; left; by rewrite A|right; by right].
      * intros v [<-|Hv]; auto.
    + split; [tauto|]. split; [lia|]. intros v [<-|Hv]; [lia|auto].
Qed.

Lemma in_values (freq : counter) (f : Z) :
  In f (values freq) <-> exists c, In (c, f) freq.
Proof.
  unfold values. rewrite List.in_map_iff. split.
  - intros ([c f'] & <- & H). by exists c.
  - intros (c & H). by exists (c, f).
Qed.

(** In a table with distinct keys an entry is what [get] returns. *)
Lemma counter_wf_entry (freq : counter) (c : string) (n : Z) :
  counter_wf freq ->
  (In (c, n) freq <-> In c (keys freq) /\ counter_get freq c = n).
Proof.
  unfold counter_wf, keys, counter_get.
  induction freq as [|[k v] freq IH]; simpl; intros Hwf; [tauto|].
  apply NoDup_cons in Hwf as [Hnotin Hwf]. specialize (IH Hwf).
  rewrite list_elem_of_In in Hnotin.
  destruct (String.eqb_spec c k) as [->|Hne].
  - split.
    + intros [H|H]; [injection H as <-; auto|].
      exfalso. apply Hnotin. apply List.in_map_iff. by exists (k, n).
    + intros [_ <-]. by left.
  - rewrite IH. split.
    + intros [H|H]; [congruence|]. tauto.
    + intros [[H|H] E]; [congruence|]. tauto.
Qed.

Lemma filter_keys_sublist (P : string * Z -> bool) (freq : counter) :
  sublist (map fst (List.filter P freq)) (keys freq).
Proof.
  unfold keys. induction freq as [|e freq IH]; simpl; [constructor|].
  destruct (P e); simpl; by constructor.
Qed.

End ModeFacts.

(** C3: for a non-empty frequency table [mode_colors] returns the maximum
    count appearing in the table together with exactly the colours that
    have this count, listed once each in table order; for the empty table
    it returns ([], 0). *)
Theorem mode_colors_spec (freq : counter) :
  counter_wf freq ->
  (freq = [] -> mode_colors freq = ([], 0)) /\
  (freq <> [] ->
     let modes := fst (mode_colors freq) in
     let maxf := snd (mode_colors freq) in
     is_max_count freq maxf /\
     (forall c, In c modes <-> In c (keys freq) /\ counter_get freq c = maxf) /\
     sublist modes (keys freq) /\ NoDup modes /\ modes <> []).
Proof.
  intros Hwf. split; [intros ->; reflexivity|].
  intros Hne. destruct freq as [|[k v] freq]; [contradiction|]. clear Hne.
  unfold mode_colors. cbn [values map snd fst].
  fold (values freq).
  set (fr := (k, v) :: freq) in *.
  set (m := py_max v (values freq)).
  destruct (py_max_spec (values freq) v) as (A & B & C). fold m in A, B, C.
  assert (Hmax : is_max_count fr m).
  { split.
    - destruct A as [A|A].
      + exists k. left. by rewrite A.
      + apply in_values in A as [c A]. exists c. by right.
    - intros c f [H|H]; [injection H as <- <-; exact B|].
      apply C, in_values. by exists c. }
  assert (Hmem : forall c, In c (map fst (List.filter (fun cf => snd cf =? m) fr)) <->
                           In (c, m) fr).
  { intros c. rewrite List.in_map_iff. split.
    - intros ([c' f] & <- & H). apply List.filter_In in H as [H E].
      simpl in E. apply Z.eqb_eq in E. by subst f.
    - intros H. exists (c, m). split; [reflexivity|].
      apply List.filter_In. split; [exact H|]. simpl. apply Z.eqb_refl. }
  cbn [fst snd]. split; [exact Hmax|]. split; [|split; [|split]].
  - intros c. rewrite Hmem. by apply counter_wf_entry.
  - apply filter_keys_sublist.
  - exact (sublist_NoDup _ _ Hwf (filter_keys_sublist _ fr)).
  - destruct Hmax as [[c Hc] _]. apply Hmem in Hc. intros E. rewrite E in Hc. inversion Hc.
Qed.

Lemma mode_colors_spec_witness :
  mode_colors [("RED", 2); ("BLUE", 3); ("X", 3)]%string = (["BLUE"; "X"]%string, 3) /\
  is_max_count [("RED", 2); ("BLUE", 3); ("X", 3)]%string 3.
Proof.
  split; [reflexivity|].
  assert (W : counter_wf [("RED", 2); ("BLUE", 3); ("X", 3)]%string).
  { unfold counter_wf. apply (bool_decide_unpack _). vm_compute. exact I. }
  apply (proj2 (mode_colors_spec [("RED", 2); ("BLUE", 3); ("X", 3)]%string W)).
  discriminate.
Defined.

(** * The variance *)

Section VarianceFacts.

Open Scope Q_scope.

Lemma py_sumQ_from (xs : list Q) (a : Q) : fold_left Qplus xs a == a + sumQ xs.
Proof.
  revert a. induction xs as [|x xs IH]; intros a; simpl.
  - by rewrite Qplus_0_r.
  - rewrite IH. by rewrite Qplus_assoc.
Qed.

Lemma py_sumQ_sumQ (xs : list Q) : py_sumQ xs == sumQ xs.
Proof. unfold py_sumQ. rewrite py_sumQ_from. apply Qplus_0_l. Qed.

Lemma inject_py_sum (xs : list Z) : inject_Z (py_sum xs) == sumQ (map inject_Z xs).
Proof.
  induction xs as [|x xs IH]; simpl; [reflexivity|].
  rewrite py_sum_cons, inject_Z_plus, IH. reflexivity.
Qed.

Lemma sumQ_ext {A : Type} (f g : A -> Q) (xs : list A) :
  (forall x, f x == g x) -> sumQ (map f xs) == sumQ (map g xs).
Proof.
  intros H. induction xs as [|x xs IH]; simpl; [reflexivity|].
  by rewrite H, IH.
Qed.

Lemma sumQ_nonneg {A : Type} (f : A -> Q) (xs : list A) :
  (forall x, 0 <= f x) -> 0 <= sumQ (map f xs).
Proof.
  intros H. induction xs as [|x xs IH]; simpl; [apply Qle_refl|].
  rewrite <- (Qplus_0_l 0). apply Qplus_le_compat; auto.
Qed.

Lemma meanv_mean_count (xs : list Z) :
  inject_Z (py_sum xs) / inject_Z (len xs) == mean_count xs.
Proof. unfold mean_count. by rewrite inject_py_sum. Qed.

Lemma len_positive {A : Type} (x : A) (xs : list A) : 0 < inject_Z (len (x :: xs)).
Proof.
  change 0 with (inject_Z 0). rewrite <- Zlt_Qlt. unfold len. simpl. lia.
Qed.

End VarianceFacts.

(** C4: over exact rationals, for a non-empty frequency table
    [variance_of_frequencies] is the population variance of the counts, that
    is the sum over the table's colours of the squared deviation of the
    colour's count from the mean count, divided by the number of colours;
    for the empty table it is 0.  In particular it is never negative. *)
Theorem variance_of_frequencies_spec (freq : counter) :
  (freq = [] -> variance_of_frequencies freq = 0%Q) /\
  (freq <> [] ->
     (variance_of_frequencies freq == population_variance (values freq))%Q) /\
  (0 <= variance_of_frequencies freq)%Q.
Proof.
  split; [intros ->; reflexivity|].
  destruct freq as [|e freq]; [split; [contradiction|apply Qle_refl]|].
  unfold variance_of_frequencies.
  set (vals := values (e :: freq)).
  set (meanv := (inject_Z (py_sum vals) / inject_Z (len vals))%Q).
  assert (Hpos : (0 < inject_Z (len vals))%Q) by apply len_positive.
  split.
  - intros _. unfold population_variance.
    apply Qdiv_comp; [|reflexivity].
    rewrite py_sumQ_sumQ. apply sumQ_ext. intros x.
    change ((inject_Z x - meanv) ^ 2)%Q with ((inject_Z x - meanv) * (inject_Z x - meanv))%Q.
    unfold meanv. by rewrite meanv_mean_count.
  - apply Qle_shift_div_l; [exact Hpos|]. rewrite Qmult_0_l, py_sumQ_sumQ.
    apply sumQ_nonneg. intros x.
    change ((inject_Z x - meanv) ^ 2)%Q with ((inject_Z x - meanv) * (inject_Z x - meanv))%Q.
    destruct (Qlt_le_dec (inject_Z x - meanv) 0) as [Hneg|Hnn].
    + setoid_replace ((inject_Z x - meanv) * (inject_Z x - meanv))%Q
        with ((- (inject_Z x - meanv)) * (- (inject_Z x - meanv)))%Q
        using relation Qeq by ring.
      apply Qmult_le_0_compat; apply (Qopp_le_compat _ 0); by apply Qlt_le_weak.
    + by apply Qmult_le_0_compat.
Qed.

Example variance_example :
  Qeq (variance_of_frequencies [("RED", 2); ("BLUE", 3); ("X", 1)]%string) (2 # 3).
Proof. reflexivity. Qed.

(** * The exercises *)

Section FibonacciFacts.

Lemma fib_recurrence (k : nat) : fib (S (S k)) = fib (S k) + fib k.
Proof. reflexivity. Qed.

Lemma fib_loop_prefix (k i : nat) :
  fib_loop k (fib i) (fib (S i)) (fib_prefix_sum i) = fib_prefix_sum (i + k).
Proof.
  revert i. induction k as [|k IH]; intros i.
  - simpl. by rewrite Nat.add_0_r.
  - cbn [fib_loop].
    replace (fib i + fib (S i)) with (fib (S (S i))) by (rewrite fib_recurrence; lia).
    change (fib_prefix_sum i + fib i) with (fib_prefix_sum (S i)).
    rewrite IH. f_equal. lia.
Qed.

Lemma fib_prefix_sum_closed (n : nat) : fib_prefix_sum n = fib (S n) - 1.
Proof.
  induction n as [|n IH]; [reflexivity|].
  cbn [fib_prefix_sum]. rewrite IH, (fib_recurrence n). lia.
Qed.

End FibonacciFacts.

(** C8: for every [n >= 0], [sum_first_n_fibonacci n] is
    [F_0 + F_1 + ... + F_(n-1)] for the Fibonacci sequence [F_0 = 0],
    [F_1 = 1], [F_k = F_(k-1) + F_(k-2)]; it equals [F_(n+1) - 1] for
    [n >= 1] and 0 for [n = 0]. *)
Theorem sum_first_n_fibonacci_spec (n : Z) :
  0 <= n ->
  sum_first_n_fibonacci n = fib_prefix_sum (Z.to_nat n) /\
  (1 <= n -> sum_first_n_fibonacci n = fib (Z.to_nat (n + 1)) - 1) /\
  (n = 0 -> sum_first_n_fibonacci n = 0).
Proof.
  intros Hn.
  assert (E : sum_first_n_fibonacci n = fib_prefix_sum (Z.to_nat n)).
  { unfold sum_first_n_fibonacci. exact (fib_loop_prefix (Z.to_nat n) 0). }
  split; [exact E|]. split.
  - intros _. rewrite E, fib_prefix_sum_closed. do 2 f_equal. lia.
  - intros ->. reflexivity.
Qed.

Lemma sum_first_n_fibonacci_spec_witness :
  sum_first_n_fibonacci 10 = fib_prefix_sum 10 /\
  (1 <= 10 -> sum_first_n_fibonacci 10 = fib 11 - 1) /\
  (10 = 0 -> sum_first_n_fibonacci 10 = 0).
Proof. apply (sum_first_n_fibonacci_spec 10). lia. Defined.

Example sum_first_50_fibonacci : sum_first_n_fibonacci 50 = 20365011073.
Proof. reflexivity. Qed.

Example sum_first_n_fibonacci_negative : sum_first_n_fibonacci (-4) = 0.
Proof. reflexivity. Qed.

Section SearchFacts.

(** One step of the recursion, as the source reads. *)
Lemma recursive_search_step (lst : list Z) (target index : Z) :
  recursive_search lst target index =
  if Z_ge_dec index (len lst) then inr (-1)
  else match list_item lst index with
       | inl e => inl e
       | inr x => if x =? target then inr index
                  else recursive_search lst target (index + 1)
       end.
Proof.
  rewrite recursive_search_equation_1.
  destruct (Z_ge_dec index (len lst)); cbn; [reflexivity|].
  destruct (list_item lst index); cbn; reflexivity.
Qed.

(** Enough fuel gives the result: the depth of the recursion is at most the
    distance from [index] to the end of the list, plus one. *)
Lemma recursive_search_fuel_enough (fuel : nat) (lst : list Z) (target index : Z) :
  (Z.to_nat (len lst - index) < fuel)%nat ->
  recursive_search_fuel fuel lst target index = Some (recursive_search lst target index).
Proof.
  revert index. induction fuel as [|fuel IH]; intros index Hlt; [lia|].
  rewrite recursive_search_step. cbn [recursive_search_fuel].
  destruct (Z_ge_dec index (len lst)) as [|Hin]; [reflexivity|].
  destruct (list_item lst index) as [e|x]; [reflexivity|].
  destruct (x =? target); [reflexivity|].
  apply IH. lia.
Qed.

Lemma list_item_middle (pre suf : list Z) (x : Z) :
  list_item (pre ++ x :: suf) (len pre) = inr x.
Proof.
  unfold list_item, len. rewrite length_app. cbn [List.length].
  destruct (Z.ltb_spec (Z.of_nat (List.length pre)) 0) as [|_]; [lia|].
  destruct (Z.leb_spec 0 (Z.of_nat (List.length pre))) as [_|]; [|lia].
  destruct (Z.ltb_spec (Z.of_nat (List.length pre))
              (Z.of_nat (List.length pre + S (List.length suf)))) as [_|]; [|lia].
  cbn [andb]. rewrite Nat2Z.id.
  by rewrite list_lookup_middle.
Qed.

(** Searching from the end of [pre] finds the first position in [suf]. *)
Lemma recursive_search_from (suf pre : list Z) (target : Z) :
  recursive_search (pre ++ suf) target (len pre) =
  match first_index target suf with
  | Some j => inr (len pre + Z.of_nat j)
  | None => inr (-1)
  end.
Proof.
  revert pre. induction suf as [|x suf IH]; intros pre;
    rewrite recursive_search_step.
  - rewrite app_nil_r. destruct (Z_ge_dec (len pre) (len pre)); [reflexivity|lia].
  - destruct (Z_ge_dec (len pre) (len (pre ++ x :: suf))) as [Hge|_].
    { unfold len in Hge. rewrite length_app in Hge. simpl in Hge. lia. }
    rewrite list_item_middle. cbn [first_index].
    destruct (x =? target); [f_equal; lia|].
    replace (len pre + 1) with (len (pre ++ [x]))
      by (unfold len; rewrite length_app; simpl; lia).
    rewrite (cons_middle x pre suf), app_assoc, IH.
    destruct (first_index target suf) as [j|]; simpl; [|reflexivity].
    f_equal. unfold len. rewrite length_app. simpl. lia.
Qed.

Lemma first_index_Some (target : Z) (lst : list Z) (i : nat) :
  first_index target lst = Some i ->
  lst !! i = Some target /\ forall j, (j < i)%nat -> lst !! j <> Some target.
Proof.
  revert i. induction lst as [|x lst IH]; intros i; simpl; [discriminate|].
  destruct (Z.eqb_spec x target) as [->|Hne].
  - intros [= <-]. split; [reflexivity|]. intros j Hj. lia.
  - destruct (first_index target lst) as [i'|]; [|discriminate].
    intros [= <-]. destruct (IH i' eq_refl) as [Hi Hmin].
    split; [exact Hi|]. intros [|j] Hj; simpl.
    + congruence.
    + apply Hmin. lia.
Qed.

Lemma first_index_None (target : Z) (lst : list Z) :
  first_index target lst = None <-> ~ In target lst.
Proof.
  induction lst as [|x lst IH]; simpl; [tauto|].
  destruct (Z.eqb_spec x target) as [->|Hne].
  - split; [discriminate|]. intros H. exfalso. apply H. by left.
  - destruct (first_index target lst) as [i'|]; simpl.
    + split; [discriminate|]. intros H. exfalso.
      destruct IH as [_ IH]. assert (N : ~ In target lst) by tauto.
      discriminate (IH N).
    + split; [|reflexivity]. intros _ [H|H]; [congruence|]. by apply IH.
Qed.

(** The same search inside a bounded call stack.  Reaching position [j] of
    [suf] takes [j + 1] nested calls, and finding that the target is absent
    takes one call more than [suf] has items. *)
Lemma recursive_search_run_from (suf pre : list Z) (target : Z) (frames : nat) :
  recursive_search_run frames (pre ++ suf) target (len pre) =
  match first_index target suf with
  | Some j => if (j <? frames)%nat then Returns (len pre + Z.of_nat j)
              else RecursionError
  | None => if (List.length suf <? frames)%nat then Returns (-1)
            else RecursionError
  end.
Proof.
  revert pre frames. induction suf as [|x suf IH]; intros pre [|frames];
    cbn [recursive_search_run first_index].
  - reflexivity.
  - rewrite app_nil_r. destruct (Z_ge_dec (len pre) (len pre)); [reflexivity|lia].
  - destruct (x =? target); [reflexivity|].
    by destruct (first_index target suf).
  - destruct (Z_ge_dec (len pre) (len (pre ++ x :: suf))) as [Hge|_].
    { unfold len in Hge. rewrite length_app in Hge. simpl in Hge. lia. }
    rewrite list_item_middle.
    destruct (x =? target); [cbn; f_equal; lia|].
    replace (len pre + 1) with (len (pre ++ [x]))
      by (unfold len; rewrite length_app; simpl; lia).
    rewrite (cons_middle x pre suf), app_assoc, IH.
    destruct (first_index target suf) as [j|]; cbn [fmap option_fmap option_map].
    + change (S j <? S frames)%nat with (j <? frames)%nat.
      destruct (j <? frames)%nat; [|reflexivity].
      f_equal. unfold len. rewrite length_app. simpl. lia.
    + change (List.length (x :: suf) <? S frames)%nat
        with (List.length suf <? frames)%nat.
      reflexivity.
Qed.

(** With more frames than the list has items the bounded search is the
    unbounded one. *)
Lemma recursive_search_run_deep (frames : nat) (lst : list Z) (target index : Z) :
  (Z.to_nat (len lst - index) < frames)%nat ->
  recursive_search_run frames lst target index =
  match recursive_search lst target index with
  | inr r => Returns r
  | inl e => Raises e
  end.
Proof.
  revert index. induction frames as [|frames IH]; intros index Hlt; [lia|].
  rewrite recursive_search_step. cbn [recursive_search_run].
  destruct (Z_ge_dec index (len lst)) as [|Hin]; [reflexivity|].
  destruct (list_item lst index) as [e|x]; [reflexivity|].
  destruct (x =? target); [reflexivity|].
  apply IH. lia.
Qed.

End SearchFacts.

(** C9, amended: for every list of integers and every target,
    [recursive_search] called from index 0 with [frames] nested calls left
    on the call stack returns the smallest index holding the target when
    the target occurs and that index is below [frames]; it returns -1 when
    the target does not occur and the list has fewer than [frames] items;
    in the remaining cases it raises [RecursionError].  The recursion is
    finite on every input: the index grows towards the length of the list,
    so with more frames than the list has items the call returns what the
    unbounded recursion computes. *)
Theorem recursive_search_spec (frames : nat) (lst : list Z) (target : Z) :
  (In target lst ->
     exists i : nat,
       lst !! i = Some target /\
       (forall j, (j < i)%nat -> lst !! j <> Some target) /\
       recursive_search_run frames lst target 0 =
         if (i <? frames)%nat then Returns (Z.of_nat i) else RecursionError) /\
  (~ In target lst ->
     recursive_search_run frames lst target 0 =
       if (List.length lst <? frames)%nat then Returns (-1) else RecursionError) /\
  ((List.length lst < frames)%nat ->
     recursive_search_fuel (S (List.length lst)) lst target 0
       = Some (recursive_search lst target 0) /\
     recursive_search_run frames lst target 0 =
       match recursive_search lst target 0 with
       | inr r => Returns r
       | inl e => Raises e
       end).
Proof.
  pose proof (recursive_search_run_from lst [] target frames) as R.
  change (len []) with 0 in R. cbn [app] in R.
  split; [|split].
  - intros Hin. destruct (first_index target lst) as [i|] eqn:E.
    + exists i. apply first_index_Some in E as [Hi Hmin].
      split; [exact Hi|]. split; [exact Hmin|]. by rewrite R.
    + apply first_index_None in E. contradiction.
  - intros Hnot. apply first_index_None in Hnot. by rewrite R, Hnot.
  - intros Hlt. split.
    + apply recursive_search_fuel_enough. unfold len. lia.
    + apply recursive_search_run_deep. unfold len. lia.
Qed.

(** C9, as stated, fails on a long list: with the 1000 frames of the
    default recursion limit, none of them used by the caller, the search
    for an absent target in a list of 1200 items raises [RecursionError]
    instead of returning -1, and so does the search for a target whose
    first occurrence is at index 1200. *)
Lemma recursive_search_recursion_error :
  ~ In 1 (repeat 0 1200) /\
  recursive_search_run 1000 (repeat 0 1200) 1 0 = RecursionError /\
  In 1 (repeat 0 1200 ++ [1]) /\
  recursive_search_run 1000 (repeat 0 1200 ++ [1]) 1 0 = RecursionError.
Proof.
  split; [|split; [|split]].
  - intros H. apply repeat_spec in H. discriminate.
  - vm_compute. reflexivity.
  - apply in_or_app. right. by left.
  - vm_compute. reflexivity.
Qed.

Example recursive_search_run_demo :
  recursive_search_run 4 [3; 5; 7; 9; 11; 13] 9 0 = Returns 3 /\
  recursive_search_run 3 [3; 5; 7; 9; 11; 13] 9 0 = RecursionError /\
  recursive_search_run 7 [3; 5; 7; 9; 11; 13] 4 0 = Returns (-1) /\
  recursive_search_run 6 [3; 5; 7; 9; 11; 13] 4 0 = RecursionError.
Proof. repeat split. Qed.

Example recursive_search_demo : recursive_search [3; 5; 7; 9; 11; 13] 9 0 = inr 3.
Proof. reflexivity. Qed.

Example recursive_search_first_of_two : recursive_search [4; 8; 4; 8] 8 0 = inr 1.
Proof. reflexivity. Qed.

Example recursive_search_absent : recursive_search [3; 5; 7] 4 0 = inr (-1).
Proof. reflexivity. Qed.

(** * The driver: calls made, text printed *)

Import Db.

Section TraceFacts.

Lemma traced_pure {A : Type} (c : M A) :
  (forall w, faults (snd (c w)) = faults w /\ calls (snd (c w)) = calls w) ->
  traced c [].
Proof.
  intros H w. destruct (H w) as [F C]. split; [exact F|].
  exists []. split; [reflexivity|]. split; [by rewrite C, app_nil_r|].
  intros _. split; [reflexivity|]. simpl. intros n Hn. lia.
Qed.

Lemma traced_ret {A : Type} (a : A) : traced (ret a) [].
Proof. by apply traced_pure. Qed.

Lemma traced_raise {A : Type} (e : exn) : traced (@raise A e) [].
Proof. by apply traced_pure. Qed.

Lemma traced_get_world : traced get_world [].
Proof. by apply traced_pure. Qed.

Lemma traced_update (f : world -> world) :
  (forall w, faults (f w) = faults w /\ calls (f w) = calls w) ->
  traced (update f) [].
Proof. intros H. apply traced_pure. exact H. Qed.

Lemma traced_print (line : string) : traced (print line) [].
Proof. by apply traced_update. Qed.

Lemma traced_driver (c : call) : traced (driver c) [c].
Proof.
  intros w. unfold driver.
  destruct (faults w (calls (set_calls (calls w ++ [c]) w))) as [msg|] eqn:F; simpl.
  - split; [reflexivity|]. exists [c]. split; [reflexivity|]. split; [reflexivity|]. tauto.
  - split; [reflexivity|]. exists [c]. split; [reflexivity|]. split; [reflexivity|].
    intros _. split; [reflexivity|]. intros n Hn.
    replace n with 1%nat by lia. exact F.
Qed.

Lemma traced_bind {A B : Type} (c : M A) (k : A -> M B) (l1 l2 l : list call) :
  traced c l1 -> (forall a, traced (k a) l2) -> l = l1 ++ l2 -> traced (bind c k) l.
Proof.
  intros Hc Hk -> w. unfold bind.
  destruct (Hc w) as (F1 & cs1 & P1 & C1 & R1).
  destruct (c w) as [[e|a] w1]; simpl in *.
  - split; [exact F1|]. exists cs1. split; [by apply prefix_app_r|].
    split; [exact C1|]. tauto.
  - destruct (R1 I) as [-> N1]. clear R1 P1.
    destruct (Hk a w1) as (F2 & cs2 & P2 & C2 & R2).
    split; [by rewrite F2|]. exists (l1 ++ cs2).
    split; [by apply prefix_app|]. split; [by rewrite C2, C1, app_assoc|].
    intros Hr. destruct (R2 Hr) as [-> N2]. split; [reflexivity|].
    intros n Hn. rewrite length_app in Hn.
    destruct (Nat.le_gt_cases n (List.length l1)) as [Hle|Hgt].
    + rewrite take_app_le by exact Hle. apply N1. lia.
    + rewrite take_app_ge by lia. rewrite app_assoc, <- C1, <- F1.
      apply N2. lia.
Qed.

Lemma traced_for_each {A : Type} (body : A -> M unit) (f : A -> call) (l : list A) :
  (forall x, traced (body x) [f x]) -> traced (for_each l body) (map f l).
Proof.
  intros H. induction l as [|x l IH]; simpl; [apply traced_ret|].
  eapply traced_bind; [apply H|intros _; exact IH|reflexivity].
Qed.

Lemma traced_connect (p : conn_params) : traced (connect p) [Connect p].
Proof.
  unfold connect.
  eapply traced_bind; [apply traced_driver| |reflexivity]. intros _.
  eapply traced_bind; [apply traced_get_world| |reflexivity]. intros w.
  destruct (databases w !! key_of p); [by apply traced_update|apply traced_raise].
Qed.

Lemma traced_execute (q : stmt) : traced (execute q) [Execute q].
Proof.
  unfold execute.
  eapply traced_bind; [apply traced_driver| |reflexivity]. intros _.
  eapply traced_bind; [apply traced_get_world| |reflexivity]. intros w.
  destruct (session w) as [[k t]|]; [|apply traced_raise].
  destruct q as [|color frequency]; [by apply traced_update|].
  destruct (has_nul color); [apply traced_raise|].
  destruct t; [|apply traced_raise].
  destruct (int4 frequency); [by apply traced_update|apply traced_raise].
Qed.

Lemma traced_commit : traced commit [Commit].
Proof.
  unfold commit.
  eapply traced_bind; [apply traced_driver| |reflexivity]. intros _.
  eapply traced_bind; [apply traced_get_world| |reflexivity]. intros w.
  destruct (session w) as [[k t]|]; [by apply traced_update|apply traced_raise].
Qed.

Lemma traced_conn_close : traced conn_close [CloseConn].
Proof.
  unfold conn_close.
  eapply traced_bind; [apply traced_driver|intros _; by apply traced_update|reflexivity].
Qed.

(** The [try] block makes the intended calls, in order, up to the first
    one that raises. *)
Lemma traced_save_body (freq : counter) (dbname : string) :
  traced (save_body freq dbname) (intended_calls freq dbname).
Proof.
  unfold save_body, intended_calls.
  eapply traced_bind; [apply traced_connect| |reflexivity]. intros _.
  eapply traced_bind; [apply traced_driver| |reflexivity]. intros _.
  eapply traced_bind; [apply traced_execute| |reflexivity]. intros _.
  eapply traced_bind;
    [apply (traced_for_each _ (fun '(color, count) => Execute (Upsert color count)))
    | |reflexivity].
  { intros [color count]. apply traced_execute. }
  intros _.
  eapply traced_bind; [apply traced_commit| |reflexivity]. intros _.
  eapply traced_bind; [apply traced_driver| |reflexivity]. intros _.
  eapply traced_bind; [apply traced_conn_close| |reflexivity]. intros _.
  apply traced_print.
Qed.

End TraceFacts.

Section OutputFacts.

Lemma silent_bind {A B : Type} (c : M A) (k : A -> M B) :
  silent c -> (forall a, silent (k a)) -> silent (bind c k).
Proof.
  intros Hc Hk w. unfold bind. specialize (Hc w).
  destruct (c w) as [[e|a] w1]; simpl in *; [exact Hc|].
  by rewrite Hk.
Qed.

Lemma silent_driver (c : call) : silent (driver c).
Proof. intros w. unfold driver. by destruct (faults w _). Qed.

Lemma silent_for_each {A : Type} (body : A -> M unit) (l : list A) :
  (forall x, silent (body x)) -> silent (for_each l body).
Proof.
  intros H. induction l as [|x l IH]; simpl; [by intros w|].
  apply silent_bind; [apply H|intros _; exact IH].
Qed.

Lemma silent_connect (p : conn_params) : silent (connect p).
Proof.
  unfold connect. apply silent_bind; [apply silent_driver|]. intros _.
  apply silent_bind; [by intros w|]. intros w0.
  destruct (databases w0 !! key_of p); by intros w.
Qed.

Lemma silent_execute (q : stmt) : silent (execute q).
Proof.
  unfold execute. apply silent_bind; [apply silent_driver|]. intros _.
  apply silent_bind; [by intros w|]. intros w0.
  destruct (session w0) as [[k t]|]; [|by intros w].
  destruct q as [|color frequency]; [by intros w|].
  destruct (has_nul color); [by intros w|].
  destruct t; [|by intros w]. destruct (int4 frequency); by intros w.
Qed.

Lemma silent_commit : silent commit.
Proof.
  unfold commit. apply silent_bind; [apply silent_driver|]. intros _.
  apply silent_bind; [by intros w|]. intros w0.
  destruct (session w0) as [[k t]|]; by intros w.
Qed.

Lemma silent_conn_close : silent conn_close.
Proof.
  unfold conn_close. apply silent_bind; [apply silent_driver|]. by intros _ w.
Qed.

Lemma announces_print (line : string) : announces (print line) line.
Proof. by intros w. Qed.

Lemma announces_bind {A : Type} (c : M A) (k : A -> M unit) (line : string) :
  silent c -> (forall a, announces (k a) line) -> announces (bind c k) line.
Proof.
  intros Hc Hk w. unfold bind. specialize (Hc w).
  destruct (c w) as [[e|a] w1]; simpl in *; [exact Hc|].
  rewrite Hk. by rewrite Hc.
Qed.

(** The [try] block prints the success message when it returns, and
    nothing when it raises. *)
Lemma announces_save_body (freq : counter) (dbname : string) :
  announces (save_body freq dbname) success_message.
Proof.
  unfold save_body.
  apply announces_bind; [apply silent_connect|]. intros _.
  apply announces_bind; [apply silent_driver|]. intros _.
  apply announces_bind; [apply silent_execute|]. intros _.
  apply announces_bind.
  { apply silent_for_each. intros [color count]. apply silent_execute. }
  intros _.
  apply announces_bind; [apply silent_commit|]. intros _.
  apply announces_bind; [apply silent_driver|]. intros _.
  apply announces_bind; [apply silent_conn_close|]. intros _.
  apply announces_print.
Qed.

Lemma error_message_not_success (e : exn) : error_message e <> success_message.
Proof. unfold error_message, success_message. simpl. discriminate. Qed.

End OutputFacts.

(** * The driver: what a run that returns has done to the table *)

Section EffectFacts.

Lemma bind_returns {A B : Type} (c : M A) (k : A -> M B) (w w' : world) (b : B) :
  bind c k w = (inr b, w') ->
  exists a w1, c w = (inr a, w1) /\ k a w1 = (inr b, w').
Proof.
  unfold bind. destruct (c w) as [[e|a] w1]; [discriminate|]. eauto.
Qed.

Lemma driver_returns (c : call) (w w' : world) (u : unit) :
  driver c w = (inr u, w') ->
  databases w' = databases w /\ session w' = session w.
Proof.
  unfold driver. destruct (faults w _); [discriminate|].
  intros H. inversion H; subst; clear H. by split.
Qed.

Lemma connect_returns (p : conn_params) (w w' : world) (u : unit) :
  connect p w = (inr u, w') ->
  databases w' = databases w /\
  exists t, databases w !! key_of p = Some t /\ session w' = Some (key_of p, t).
Proof.
  unfold connect. intros H.
  apply bind_returns in H as (? & w1 & H1 & H).
  apply driver_returns in H1 as [D1 _].
  apply bind_returns in H as (w0 & w2 & H2 & H).
  injection H2 as <- <-.
  rewrite <- D1. destruct (databases w1 !! key_of p) as [t|]; [|discriminate].
  inversion H; subst; clear H. split; [reflexivity|]. by exists t.
Qed.

Lemma execute_returns (q : stmt) (w w' : world) (u : unit) :
  execute q w = (inr u, w') ->
  databases w' = databases w /\
  exists k t, session w = Some (k, t) /\
    match q with
    | CreateTableIfNotExists => session w' = Some (k, Some (default ∅ t))
    | Upsert color frequency =>
        exists rows, t = Some rows /\
                     session w' = Some (k, Some (<[color := frequency]> rows))
    end.
Proof.
  unfold execute. intros H.
  apply bind_returns in H as (? & w1 & H1 & H).
  apply driver_returns in H1 as [D1 S1].
  apply bind_returns in H as (w0 & w2 & H2 & H).
  injection H2 as <- <-.
  rewrite <- D1, <- S1. destruct (session w1) as [[k t]|]; [|discriminate].
  destruct q as [|color frequency].
  - inversion H; subst; clear H. split; [reflexivity|]. by exists k, t.
  - destruct (has_nul color); [discriminate|].
    destruct t as [rows|]; [|discriminate].
    destruct (int4 frequency); [|discriminate].
    inversion H; subst; clear H. split; [reflexivity|]. exists k, (Some rows).
    split; [reflexivity|]. by exists rows.
Qed.

Lemma upsert_loop_returns (freq : counter) (w w' : world) (k : db_key)
    (rows : gmap string Z) :
  for_each freq (fun '(color, count) => execute (Upsert color count)) w = (inr tt, w') ->
  session w = Some (k, Some rows) ->
  databases w' = databases w /\ session w' = Some (k, Some (upsert_all freq rows)).
Proof.
  revert w rows. induction freq as [|[color count] freq IH]; intros w rows; simpl.
  - intros [= <-] S. by split.
  - intros H S. apply bind_returns in H as (? & w1 & H1 & H).
    apply execute_returns in H1 as (D1 & k1 & t1 & S0 & rows1 & -> & S1).
    rewrite S in S0. injection S0 as <- <-.
    destruct (IH w1 _ H S1) as [D2 S2]. split; [by rewrite D2|exact S2].
Qed.

Lemma commit_returns (w w' : world) (u : unit) :
  commit w = (inr u, w') ->
  exists k t, session w = Some (k, t) /\ databases w' = <[k := t]> (databases w).
Proof.
  unfold commit. intros H.
  apply bind_returns in H as (? & w1 & H1 & H).
  apply driver_returns in H1 as [D1 S1].
  apply bind_returns in H as (w0 & w2 & H2 & H).
  injection H2 as <- <-.
  rewrite <- D1, <- S1. destruct (session w1) as [[k t]|]; [|discriminate].
  inversion H; subst; clear H. by exists k, t.
Qed.

Lemma conn_close_returns (w w' : world) (u : unit) :
  conn_close w = (inr u, w') -> databases w' = databases w.
Proof.
  unfold conn_close. intros H.
  apply bind_returns in H as (? & w1 & H1 & H).
  apply driver_returns in H1 as [D1 _]. inversion H; subst; clear H. exact D1.
Qed.

(** When the [try] block returns, the committed table of the database is
    the old one (empty if it did not exist) with every entry of [freq]
    upserted; no other database is touched. *)
Lemma save_body_returns (freq : counter) (dbname : string) (w w' : world) :
  save_body freq dbname w = (inr tt, w') ->
  exists t0,
    databases w !! key_of (connection_used dbname) = Some t0 /\
    databases w' =
      <[key_of (connection_used dbname) := Some (upsert_all freq (default ∅ t0))]>
        (databases w).
Proof.
  unfold save_body. intros H.
  apply bind_returns in H as (? & w1 & H1 & H).
  apply connect_returns in H1 as (D1 & t0 & L0 & S1).
  apply bind_returns in H as (? & w2 & H2 & H).
  apply driver_returns in H2 as [D2 S2].
  apply bind_returns in H as (? & w3 & H3 & H).
  apply execute_returns in H3 as (D3 & k3 & t3 & S3 & S3').
  rewrite S2, S1 in S3. injection S3 as <- <-.
  apply bind_returns in H as ([] & w4 & H4 & H).
  destruct (upsert_loop_returns _ _ _ _ _ H4 S3') as [D4 S4].
  apply bind_returns in H as (? & w5 & H5 & H).
  apply commit_returns in H5 as (k5 & t5 & S5 & D5).
  rewrite S4 in S5. injection S5 as <- <-.
  apply bind_returns in H as (? & w6 & H6 & H).
  apply driver_returns in H6 as [D6 _].
  apply bind_returns in H as (? & w7 & H7 & H).
  apply conn_close_returns in H7 as D7.
  inversion H; subst; clear H. exists t0. split; [exact L0|].
  cbn [databases set_stdout]. by rewrite D7, D6, D5, D4, D3, D2, D1.
Qed.

Lemma upsert_all_other (freq : counter) (rows : gmap string Z) (c : string) :
  ~ In c (keys freq) -> upsert_all freq rows !! c = rows !! c.
Proof.
  unfold upsert_all, keys.
  revert rows. induction freq as [|[k n] freq IH]; intros rows Hc; simpl; [reflexivity|].
  simpl in Hc. rewrite IH by tauto.
  apply lookup_insert_ne. intros ->. tauto.
Qed.

Lemma upsert_all_entry (freq : counter) (rows : gmap string Z) (c : string) (n : Z) :
  counter_wf freq -> In (c, n) freq -> upsert_all freq rows !! c = Some n.
Proof.
  unfold counter_wf.
  revert rows. induction freq as [|[k v] freq IH]; intros rows Hwf Hin; [inversion Hin|].
  simpl in Hwf. apply NoDup_cons in Hwf as [Hnotin Hwf].
  destruct Hin as [[= -> ->]|Hin].
  - change (upsert_all ((c, n) :: freq) rows) with (upsert_all freq (<[c := n]> rows)).
    rewrite upsert_all_other; [apply lookup_insert_eq|].
    by rewrite <- list_elem_of_In.
  - change (upsert_all ((k, v) :: freq) rows) with (upsert_all freq (<[k := v]> rows)).
    by apply IH.
Qed.

End EffectFacts.

(** * [save_to_postgres] *)

Section SaveFacts.

(** The handler does not touch the server or the call log. *)
Lemma save_to_postgres_worlds (freq : counter)
    (dbname user password host port : string) (w : world) :
  let w1 := snd (save_body freq dbname w) in
  let w' := snd (save_to_postgres freq dbname user password host port w) in
  databases w' = databases w1 /\ calls w' = calls w1 /\
  stdout w' =
    match fst (save_body freq dbname w) with
    | inl e => stdout w ++ [error_message e]
    | inr _ => stdout w ++ [success_message]
    end.
Proof.
  cbv zeta. unfold save_to_postgres, try_except.
  pose proof (announces_save_body freq dbname w) as Hout.
  destruct (save_body freq dbname w) as [[e|[]] w1]; simpl in *.
  - by rewrite Hout.
  - by rewrite Hout.
Qed.

Lemma calls_grow {A : Type} (c : M A) (l : list call) (w : world) :
  traced c l -> calls w `prefix_of` calls (snd (c w)).
Proof.
  intros H. destruct (H w) as (_ & cs & _ & -> & _). by apply prefix_app_r.
Qed.

(** Whatever happens, the call to [connect] is logged. *)
Lemma connect_calls (p : conn_params) (w : world) :
  calls (snd (connect p w)) = calls w ++ [Connect p].
Proof.
  unfold connect, bind, driver. destruct (faults w _); simpl; [reflexivity|].
  by destruct (databases w !! key_of p).
Qed.

Lemma save_body_first_call (freq : counter) (dbname : string) (w : world) :
  calls w ++ [Connect (connection_used dbname)]
    `prefix_of` calls (snd (save_body freq dbname w)).
Proof.
  pose proof (connect_calls (connection_used dbname) w) as Hc.
  unfold save_body. unfold bind at 1.
  destruct (connect (connection_used dbname) w) as [[e|[]] w1]; simpl in *.
  - by rewrite Hc.
  - rewrite <- Hc.
    eapply (calls_grow _ ([OpenCursor; Execute CreateTableIfNotExists]
              ++ map (fun '(color, count) => Execute (Upsert color count)) freq
              ++ [Commit; CloseCursor; CloseConn])).
    eapply traced_bind; [apply traced_driver| |reflexivity]. intros _.
    eapply traced_bind; [apply traced_execute| |reflexivity]. intros _.
    eapply traced_bind;
      [apply (traced_for_each _ (fun '(color, count) => Execute (Upsert color count)))
      | |reflexivity].
    { intros [color count]. apply traced_execute. }
    intros _.
    eapply traced_bind; [apply traced_commit| |reflexivity]. intros _.
    eapply traced_bind; [apply traced_driver| |reflexivity]. intros _.
    eapply traced_bind; [apply traced_conn_close| |reflexivity]. intros _.
    apply traced_print.
Qed.

(** A faulted call keeps the [try] block from returning. *)
Lemma faulted_call_raises (freq : counter) (dbname : string) (w : world) :
  some_call_faulted w (snd (save_body freq dbname w)) ->
  exists e, fst (save_body freq dbname w) = inl e.
Proof.
  intros (n & Hn & Hf).
  destruct (traced_save_body freq dbname w) as (_ & cs & _ & C & R).
  destruct (fst (save_body freq dbname w)) as [e|u] eqn:E; [by exists e|].
  exfalso. destruct (R I) as [-> N]. apply Hf.
  rewrite C in Hn |- *. rewrite length_app in Hn.
  rewrite take_app_ge by lia. apply N. lia.
Qed.

End SaveFacts.

(** C6: when the [try] block of [save_to_postgres] runs without raising,
    the table [color_frequencies] of the database, seen as a map from colour
    to frequency, maps every colour of the input table to its count (a new
    row or an overwritten one), and holds for every other colour what it
    held before; the other databases of the server are unchanged. *)
Theorem save_to_postgres_upserts (freq : counter)
    (dbname user password host port : string) (w : world) :
  counter_wf freq ->
  returned (fst (save_body freq dbname w)) ->
  let w' := snd (save_to_postgres freq dbname user password host port w) in
  let k := key_of (connection_used dbname) in
  (forall c n, In (c, n) freq -> color_frequencies w' k !! c = Some n) /\
  (forall c, ~ In c (keys freq) ->
             color_frequencies w' k !! c = color_frequencies w k !! c) /\
  (forall k', k' <> k -> databases w' !! k' = databases w !! k') /\
  stdout w' = stdout w ++ [success_message].
Proof.
  intros Hwf Hret w' k.
  destruct (save_to_postgres_worlds freq dbname user password host port w)
    as (D & _ & O).
  fold w' in D, O.
  destruct (save_body freq dbname w) as [[e|[]] w1] eqn:E; [contradiction|].
  simpl in D, O.
  destruct (save_body_returns _ _ _ _ E) as (t0 & L0 & D1). fold k in L0, D1.
  assert (T : color_frequencies w' k = upsert_all freq (default ∅ t0)).
  { unfold color_frequencies. by rewrite D, D1, lookup_insert_eq. }
  assert (T0 : color_frequencies w k = default ∅ t0).
  { unfold color_frequencies. rewrite L0. by destruct t0. }
  split; [|split; [|split]].
  - intros c n Hin. rewrite T. by apply upsert_all_entry.
  - intros c Hc. rewrite T, T0. by apply upsert_all_other.
  - intros k' Hk. rewrite D, D1. by apply lookup_insert_ne.
  - exact O.
Qed.

Lemma save_to_postgres_upserts_witness :
  color_frequencies
    (snd (save_to_postgres [("RED", 2); ("BLUE", 3)]%string
                           "colors_db" "admin" "secret" "db.example" "6543" demo_world))
    ("localhost", "5432", "colors_db")%string !! "BLUE"%string = Some 3.
Proof.
  assert (W : counter_wf [("RED", 2); ("BLUE", 3)]%string).
  { unfold counter_wf. apply (bool_decide_unpack _). vm_compute. exact I. }
  assert (R : returned (fst (save_body [("RED", 2); ("BLUE", 3)]%string
                                       "colors_db" demo_world))).
  { vm_compute. exact I. }
  apply (proj1 (save_to_postgres_upserts [("RED", 2); ("BLUE", 3)]%string
                  "colors_db" "admin" "secret" "db.example" "6543" demo_world W R)).
  right. by left.
Defined.

Example save_to_postgres_demo_table :
  map_to_list (color_frequencies
    (snd (save_to_postgres [("RED", 2); ("BLUE", 3)]%string
                           "colors_db" "admin" "secret" "db.example" "6543" demo_world))
    ("localhost", "5432", "colors_db")%string)
  = [("RED", 2); ("BLUE", 3); ("PINK", 1)]%string.
Proof. vm_compute. reflexivity. Qed.

(** C7: [save_to_postgres] always returns normally.  Whenever its [try]
    block raises, in particular whenever the environment makes the
    connection or any statement (or any other driver call) fail, the
    handler prints one line, the error message, and the success message is
    not printed. *)
Theorem save_to_postgres_never_raises (freq : counter)
    (dbname user password host port : string) (w : world) :
  let body := save_body freq dbname w in
  let r := save_to_postgres freq dbname user password host port w in
  fst r = inr tt /\
  (forall e, fst body = inl e ->
     stdout (snd r) = stdout w ++ [error_message e] /\
     error_message e <> success_message) /\
  (some_call_faulted w (snd r) ->
     exists e, fst body = inl e /\ stdout (snd r) = stdout w ++ [error_message e]) /\
  (forall msg, faults w (calls w ++ [Connect (connection_used dbname)]) = Some msg ->
     stdout (snd r) = stdout w ++ [error_message (DbError msg)]).
Proof.
  cbv zeta.
  destruct (save_to_postgres_worlds freq dbname user password host port w)
    as (_ & C & O).
  split; [|split; [|split]].
  - unfold save_to_postgres, try_except.
    by destruct (save_body freq dbname w) as [[e|[]] w1].
  - intros e E. rewrite E in O. split; [exact O|apply error_message_not_success].
  - intros Hf. unfold some_call_faulted in Hf. rewrite C in Hf.
    destruct (faulted_call_raises freq dbname w Hf) as [e E].
    exists e. split; [exact E|]. by rewrite E in O.
  - intros msg F. rewrite O.
    unfold save_body, connect, bind, driver. cbn [calls set_calls]. by rewrite F.
Qed.

Example save_to_postgres_flaky :
  fst (save_to_postgres [("RED", 2)]%string "colors_db" "u" "p" "h" "1" flaky_world)
    = inr tt /\
  stdout (snd (save_to_postgres [("RED", 2)]%string "colors_db" "u" "p" "h" "1" flaky_world))
    = ["Error saving to PostgreSQL: connection lost"]%string /\
  databases (snd (save_to_postgres [("RED", 2)]%string "colors_db" "u" "p" "h" "1" flaky_world))
    = databases flaky_world.
Proof. split; [reflexivity|]. split; reflexivity. Qed.

(** C10: [save_to_postgres] ignores [user], [password], [host] and [port]:
    two calls that agree on [freq] and [dbname] return the same result and
    the same final world, whatever these four arguments are.  The only
    connection it opens, its first driver call, is made as user "postgres"
    with the empty password to "localhost", port "5432". *)
Theorem save_to_postgres_ignores_credentials (freq : counter)
    (dbname user1 password1 host1 port1 user2 password2 host2 port2 : string)
    (w : world) :
  save_to_postgres freq dbname user1 password1 host1 port1 w
  = save_to_postgres freq dbname user2 password2 host2 port2 w /\
  exists cs,
    calls (snd (save_to_postgres freq dbname user1 password1 host1 port1 w))
    = calls w ++ Connect (ConnParams dbname "postgres" "" "localhost" "5432") :: cs /\
    forall p, ~ In (Connect p) cs.
Proof.
  split; [reflexivity|].
  destruct (save_to_postgres_worlds freq dbname user1 password1 host1 port1 w)
    as (_ & C & _).
  rewrite C.
  destruct (traced_save_body freq dbname w) as (_ & cs & P & E & _).
  destruct (save_body_first_call freq dbname w) as [rest F].
  rewrite E in F. rewrite <- app_assoc in F. apply app_inv_head in F.
  subst cs. exists rest. split; [by rewrite E|].
  intros p Hin.
  change (intended_calls freq dbname) with
    ([Connect (connection_used dbname)] ++
     ([OpenCursor; Execute CreateTableIfNotExists]
      ++ map (fun '(color, count) => Execute (Upsert color count)) freq
      ++ [Commit; CloseCursor; CloseConn])) in P.
  apply prefix_app_inv in P. destruct P as [more P].
  assert (Hin' : In (Connect p)
            ([OpenCursor; Execute CreateTableIfNotExists]
             ++ map (fun '(color, count) => Execute (Upsert color count)) freq
             ++ [Commit; CloseCursor; CloseConn])).
  { rewrite P. apply List.in_or_app. by left. }
  apply List.in_app_or in Hin' as [H|H].
  - destruct H as [H|[H|[]]]; discriminate.
  - apply List.in_app_or in H as [H|H].
    + apply List.in_map_iff in H as ([c n] & H & _). discriminate.
    + destruct H as [H|[H|[H|[]]]]; discriminate.
Qed.

(** The driver itself is sensitive to the host it is given: it is the
    program that never passes its [host] argument on. *)
Example connect_depends_on_host :
  fst (connect (ConnParams "colors_db" "postgres" "" "localhost" "5432") demo_world)
    = inr tt /\
  fst (connect (ConnParams "colors_db" "postgres" "" "db.example" "5432") demo_world)
    = inl (DbError (wording demo_world (NoSuchDatabase ("db.example", "5432", "colors_db")))).
Proof. vm_compute. by split. Qed.

(** * More on normalisation and parsing *)

Section NormalFacts.

Lemma upper_char_idem (c : ascii) : upper_char (upper_char c) = upper_char c.
Proof. destruct c as [[] [] [] [] [] [] [] []]; reflexivity. Qed.

Lemma is_space_upper_char (c : ascii) : is_space (upper_char c) = is_space c.
Proof. destruct c as [[] [] [] [] [] [] [] []]; reflexivity. Qed.

Lemma upper_idem (s : string) : upper (upper s) = upper s.
Proof.
  induction s as [|c s IH]; simpl; [reflexivity|].
  by rewrite upper_char_idem, IH.
Qed.

Lemma lstrip_upper (s : string) : lstrip (upper s) = upper (lstrip s).
Proof.
  induction s as [|c s IH]; simpl; [reflexivity|].
  rewrite is_space_upper_char. by destruct (is_space c).
Qed.

Lemma rstrip_upper (s : string) : rstrip (upper s) = upper (rstrip s).
Proof.
  induction s as [|c s IH]; simpl; [reflexivity|].
  rewrite IH, is_space_upper_char.
  destruct (rstrip s); simpl; [by destruct (is_space c)|reflexivity].
Qed.

Lemma strip_upper (s : string) : strip (upper s) = upper (strip s).
Proof. unfold strip. by rewrite lstrip_upper, rstrip_upper. Qed.

(** The stripped, upper-cased form is stable under stripping and
    upper-casing. *)
Lemma canonical_form_stable (s : string) :
  upper (strip (upper (strip s))) = upper (strip s).
Proof. by rewrite strip_upper, strip_idem, upper_idem. Qed.

Lemma upper_nonempty (s : string) : truthy (upper s) = truthy s.
Proof. by destruct s. Qed.

(** What [normalize_color] returns, by cases. *)
Lemma normalize_color_cases (s : string) :
  (In (upper (strip s)) misspellings /\ normalize_color s = "BLUE"%string) \/
  (~ In (upper (strip s)) misspellings /\ normalize_color s = upper (strip s)).
Proof.
  unfold normalize_color, corrections, misspellings. simpl.
  generalize (upper (strip s)). intros f.
  destruct (String.eqb_spec f "BLEW"%string) as [E1|N1]; [left; auto|].
  destruct (String.eqb_spec f "BLUW"%string) as [E2|N2]; [left; auto|].
  destruct (String.eqb_spec f "BLU"%string) as [E3|N3]; [left; auto|].
  right. split; [|reflexivity]. intros [H|[H|[H|[]]]]; congruence.
Qed.

Lemma normalize_color_fixed (s : string) :
  normalize_color (normalize_color s) = normalize_color s.
Proof.
  destruct (normalize_color_cases s) as [[_ ->]|[Hn ->]]; [reflexivity|].
  destruct (normalize_color_cases (upper (strip s))) as [[Hm _]|[_ ->]].
  - rewrite canonical_form_stable in Hm. contradiction.
  - apply canonical_form_stable.
Qed.

End NormalFacts.

(** X1: normalising twice is the same as normalising once. *)
Theorem normalize_color_idempotent (s : string) :
  normalize_color (normalize_color s) = normalize_color s.
Proof. exact (normalize_color_fixed s). Qed.

(** X2: a normalised name is never one of the three misspellings, and it
    carries no surrounding white space and no lower-case ASCII letter:
    stripping or upper-casing it again changes nothing. *)
Theorem normalize_color_canonical (s : string) :
  ~ In (normalize_color s) misspellings /\
  strip (normalize_color s) = normalize_color s /\
  upper (normalize_color s) = normalize_color s.
Proof.
  destruct (normalize_color_cases s) as [[_ ->]|[Hn ->]].
  - split; [|split; reflexivity]. simpl. intros [H|[H|[H|[]]]]; discriminate.
  - split; [exact Hn|]. split.
    + by rewrite <- strip_upper, strip_idem.
    + apply upper_idem.
Qed.

(** X3: the white space that the regular expression swallows after a comma
    makes no difference: the parts of a row are the stripped, non-blank
    pieces of a plain split on commas. *)
Theorem row_parts_plain_split (line : string) :
  row_parts line =
  map strip (List.filter (fun p => truthy (strip p)) (split_comma line)).
Proof. exact (row_parts_fragments line). Qed.

(** X4: [flatten_colors] never yields an empty name, and every name it
    yields is already normalised. *)
Theorem flatten_colors_names (rows : list string) (c : string) :
  In c (flatten_colors rows) -> c <> EmptyString /\ normalize_color c = c.
Proof.
  rewrite flatten_colors_observations. intros H.
  apply List.in_map_iff in H as (f & <- & Hf).
  split; [|apply normalize_color_fixed].
  unfold observations in Hf. apply List.in_flat_map in Hf as (row & _ & Hf).
  unfold fragments in Hf. apply List.filter_In in Hf as [_ Ht].
  destruct (normalize_color_cases f) as [[_ ->]|[_ ->]]; [discriminate|].
  rewrite <- upper_nonempty in Ht. by destruct (upper (strip f)).
Qed.

Lemma flatten_colors_names_witness :
  "BLUE"%string <> EmptyString /\ normalize_color "BLUE" = "BLUE"%string.
Proof.
  apply (flatten_colors_names ["red, Blew"; "x"]%string "BLUE"%string).
  right. by left.
Defined.

(** X5: rows are processed independently: the names of a concatenation of
    row lists are the names of the first followed by those of the second,
    and the counts add up. *)
Theorem flatten_colors_app (rows1 rows2 : list string) (C : string) :
  flatten_colors (rows1 ++ rows2) = flatten_colors rows1 ++ flatten_colors rows2 /\
  counter_get (Counter (flatten_colors (rows1 ++ rows2))) C =
  counter_get (Counter (flatten_colors rows1)) C
  + counter_get (Counter (flatten_colors rows2)) C.
Proof.
  assert (E : flatten_colors (rows1 ++ rows2)
              = flatten_colors rows1 ++ flatten_colors rows2).
  { rewrite !flatten_colors_observations. unfold observations.
    by rewrite flat_map_app, List.map_app. }
  split; [exact E|].
  destruct (Counter_invariant (flatten_colors (rows1 ++ rows2))) as (_ & _ & _ & G).
  destruct (Counter_invariant (flatten_colors rows1)) as (_ & _ & _ & G1).
  destruct (Counter_invariant (flatten_colors rows2)) as (_ & _ & _ & G2).
  rewrite G, G1, G2, E, List.filter_app. unfold len. rewrite length_app. lia.
Qed.

(** * More on the frequency table *)

Section CounterOrder.

Lemma keys_incr_order (freq : counter) (elem : string) :
  keys (counter_incr freq elem) =
  keys freq ++ (if bool_decide (elem ∈ keys freq) then [] else [elem]).
Proof.
  unfold keys. induction freq as [|[k n] freq IH]; simpl; [reflexivity|].
  destruct (String.eqb_spec elem k) as [->|Hne]; simpl.
  - rewrite bool_decide_true by (by left). by rewrite app_nil_r.
  - rewrite IH. f_equal.
    rewrite (bool_decide_ext (elem ∈ map fst freq) (elem ∈ k :: map fst freq));
      [reflexivity|].
    rewrite elem_of_cons. intuition congruence.
Qed.

Lemma Counter_snoc (flat : list string) (e : string) :
  Counter (flat ++ [e]) = counter_incr (Counter flat) e.
Proof. unfold Counter. by rewrite fold_left_app. Qed.

Lemma keys_Counter_elem (flat : list string) (e : string) :
  e ∈ keys (Counter flat) <-> e ∈ flat.
Proof.
  destruct (Counter_invariant flat) as (_ & P & _ & G).
  rewrite !list_elem_of_In, (counter_get_positive_key _ _ P), G.
  unfold len. split.
  - intros H. destruct (List.filter (fun x => String.eqb x e) flat) as [|x l] eqn:F;
      [simpl in H; lia|].
    assert (Hx : In x (List.filter (fun x => String.eqb x e) flat)) by (rewrite F; by left).
    apply List.filter_In in Hx as [Hx Hxe]. apply String.eqb_eq in Hxe. by subst.
  - intros H.
    assert (Hx : In e (List.filter (fun x => String.eqb x e) flat)).
    { apply List.filter_In. split; [exact H|apply String.eqb_refl]. }
    destruct (List.filter (fun x => String.eqb x e) flat); [inversion Hx|simpl; lia].
Qed.

End CounterOrder.

(** X6: the keys of a [Counter] are the distinct names in the order of
    their first occurrence: counting one more name appends it to the keys
    when it is new and leaves the keys alone otherwise; counting nothing
    gives no key. *)
Theorem Counter_keys_first_occurrence (flat : list string) (e : string) :
  keys (Counter []) = [] /\
  keys (Counter (flat ++ [e])) =
  keys (Counter flat) ++ (if bool_decide (e ∈ flat) then [] else [e]).
Proof.
  split; [reflexivity|].
  rewrite Counter_snoc, keys_incr_order.
  by rewrite (bool_decide_ext _ _ (keys_Counter_elem flat e)).
Qed.

(** X7: the counts do not depend on the order of the observations, and
    they add up to the number of observations. *)
Theorem Counter_permutation (flat flat' : list string) :
  flat ≡ₚ flat' ->
  (forall k, counter_get (Counter flat) k = counter_get (Counter flat') k) /\
  py_sum (values (Counter flat)) = len flat' .
Proof.
  intros HP.
  destruct (Counter_invariant flat) as (_ & _ & S & G).
  destruct (Counter_invariant flat') as (_ & _ & _ & G').
  split.
  - intros k. rewrite G, G'. unfold len. f_equal.
    apply Permutation_length. clear -HP.
    induction HP; simpl; auto.
    + destruct (String.eqb x k); simpl; auto.
    + destruct (String.eqb x k), (String.eqb y k); simpl; auto. apply perm_swap.
    + etransitivity; eauto.
  - rewrite S. unfold len. f_equal. by apply Permutation_length.
Qed.

Lemma Counter_permutation_witness :
  (forall k, counter_get (Counter ["A"; "B"; "A"]%string) k
             = counter_get (Counter ["B"; "A"; "A"]%string) k) /\
  py_sum (values (Counter ["A"; "B"; "A"]%string)) = 3.
Proof.
  apply (Counter_permutation ["A"; "B"; "A"]%string ["B"; "A"; "A"]%string).
  apply perm_swap.
Defined.

(** * More on the statistics *)

Section ModeMean.

Lemma py_sum_le_max (xs : list Z) (m : Z) :
  (forall v, In v xs -> v <= m) -> py_sum xs <= m * len xs.
Proof.
  unfold len. induction xs as [|x xs IH]; intros H.
  - unfold py_sum. simpl. lia.
  - rewrite py_sum_cons. cbn [List.length].
    assert (x <= m) by (apply H; by left).
    assert (py_sum xs <= m * Z.of_nat (List.length xs)).
    { apply IH. intros v Hv. apply H. by right. }
    lia.
Qed.

Lemma py_sum_ge_member (xs : list Z) (v : Z) :
  Forall (fun x => 1 <= x) xs -> In v xs -> v <= py_sum xs.
Proof.
  induction xs as [|x xs IH]; intros HF Hin; [inversion Hin|].
  apply Forall_cons in HF as [Hx HF]. rewrite py_sum_cons.
  assert (0 <= py_sum xs).
  { clear -HF. induction xs as [|y xs IH].
    - unfold py_sum. simpl. lia.
    - apply Forall_cons in HF as [Hy HF]. rewrite py_sum_cons. specialize (IH HF). lia. }
  destruct Hin as [<-|Hin]; [lia|]. specialize (IH HF Hin). lia.
Qed.

End ModeMean.

(** X8: the mode count is at least the mean count: for a non-empty table
    the sum of the counts is at most the mode count times the number of
    colours.  In a table built by counting, the mode count is at least 1
    and at most the total. *)
Theorem mode_count_bounds (freq : counter) :
  freq <> [] ->
  py_sum (values freq) <= snd (mode_colors freq) * len freq /\
  (counts_positive freq ->
     1 <= snd (mode_colors freq) <= py_sum (values freq)).
Proof.
  intros Hne. destruct freq as [|[k v] freq]; [contradiction|].
  unfold mode_colors. cbn [values map snd fst].
  fold (values freq).
  destruct (py_max_spec (values freq) v) as (A & B & C).
  set (m := py_max v (values freq)) in *.
  split.
  - replace (len ((k, v) :: freq)) with (len (v :: values freq))
      by (unfold len, values; simpl; by rewrite length_map).
    apply py_sum_le_max. intros x [<-|Hx]; auto.
  - intros P. unfold counts_positive in P. cbn [values map snd] in P.
    fold (values freq) in P.
    pose proof (proj1 (Forall_cons _ _ _) P) as [Hv _].
    split; [simpl in Hv; lia|].
    apply py_sum_ge_member; [exact P|].
    destruct A as [->|A]; [by left|by right].
Qed.

Lemma mode_count_bounds_witness :
  py_sum (values [("RED", 2); ("BLUE", 5)]%string)
  <= snd (mode_colors [("RED", 2); ("BLUE", 5)]%string)
     * len [("RED", 2); ("BLUE", 5)]%string.
Proof.
  assert (H : [("RED", 2); ("BLUE", 5)]%string <> @nil (string * Z)) by discriminate.
  exact (proj1 (mode_count_bounds _ H)).
Defined.

Section MeanFacts.

Open Scope Q_scope.

Lemma Qlt_bool_spec (a b : Q) : Qlt_bool a b = true <-> a < b.
Proof.
  unfold Qlt_bool. rewrite negb_true_iff. split.
  - intros H. apply Qnot_le_lt. intros Hle. apply Qle_bool_iff in Hle. congruence.
  - intros H. destruct (Qle_bool b a) eqn:E; [|reflexivity].
    apply Qle_bool_iff in E. exfalso. by apply (Qlt_not_le _ _ H).
Qed.

Lemma filter_none {A : Type} (f : A -> bool) (l : list A) :
  (forall x, In x l -> f x = false) -> List.filter f l = [].
Proof.
  induction l as [|x l IH]; intros H; simpl; [reflexivity|].
  rewrite (H x) by (by left). apply IH. intros y Hy. apply H. by right.
Qed.

Lemma mean_step_first (meanv : Q) (cf : string * Z) :
  mean_settled meanv [cf] (mean_step meanv (None, []) cf).
Proof.
  unfold mean_step. cbn [fst snd]. exists (mean_dist meanv cf). cbn [fst snd].
  split; [reflexivity|]. split; [exists cf; split; [by left|reflexivity]|].
  split; [intros ? [<-|[]]; apply Qle_refl|].
  cbn [List.filter]. by rewrite Qeq_bool_refl.
Qed.

Lemma mean_step_next (meanv : Q) (p : counter) (st : option Q * list string)
    (cf : string * Z) :
  mean_settled meanv p st -> mean_settled meanv (p ++ [cf]) (mean_step meanv st cf).
Proof.
  intros (d & Hd & (cf0 & Hin0 & E0) & Hmin & Hcl).
  unfold mean_step. rewrite Hd. fold (mean_dist meanv cf).
  destruct (Qlt_bool (mean_dist meanv cf) d) eqn:Hlt.
  - apply Qlt_bool_spec in Hlt. exists (mean_dist meanv cf). cbn [fst snd].
    split; [reflexivity|]. split.
    { exists cf. split; [apply List.in_or_app; right; by left|reflexivity]. }
    split.
    { intros x Hx. apply List.in_app_or in Hx as [Hx|[<-|[]]]; [|apply Qle_refl].
      apply Qlt_le_weak. eapply Qlt_le_trans; [exact Hlt|by apply Hmin]. }
    rewrite List.filter_app. cbn [List.filter]. rewrite Qeq_bool_refl.
    rewrite filter_none; [reflexivity|].
    intros x Hx. destruct (Qeq_bool (mean_dist meanv x) (mean_dist meanv cf)) eqn:E;
      [|reflexivity].
    apply Qeq_bool_iff in E. exfalso.
    apply (Qlt_not_le _ _ Hlt). rewrite <- E. by apply Hmin.
  - assert (Hge : d <= mean_dist meanv cf).
    { apply Qnot_lt_le. intros H. apply Qlt_bool_spec in H. congruence. }
    destruct (Qeq_bool (mean_dist meanv cf) d) eqn:Heq.
    + exists d. cbn [fst snd]. split; [reflexivity|]. split.
      { exists cf0. split; [apply List.in_or_app; by left|exact E0]. }
      split.
      { intros x Hx. apply List.in_app_or in Hx as [Hx|[<-|[]]]; auto. }
      rewrite List.filter_app, List.map_app, Hcl. cbn [List.filter].
      by rewrite Heq.
    + exists d. split; [exact Hd|]. split.
      { exists cf0. split; [apply List.in_or_app; by left|exact E0]. }
      split.
      { intros x Hx. apply List.in_app_or in Hx as [Hx|[<-|[]]]; auto. }
      rewrite List.filter_app, List.map_app, Hcl. cbn [List.filter].
      rewrite Heq. by rewrite app_nil_r.
Qed.

Lemma mean_loop_settled (meanv : Q) (rest p : counter) (st : option Q * list string) :
  mean_settled meanv p st ->
  mean_settled meanv (p ++ rest) (fold_left (mean_step meanv) rest st).
Proof.
  revert p st. induction rest as [|cf rest IH]; intros p st H; simpl.
  - by rewrite app_nil_r.
  - rewrite (cons_middle cf p rest), app_assoc. apply IH. by apply mean_step_next.
Qed.

End MeanFacts.

(** X9: over exact rationals, for a non-empty table [mean_color] returns
    the mean count together with exactly the colours whose count is nearest
    to the mean, in table order; there is always at least one. *)
Theorem mean_color_spec (freq : counter) :
  freq <> [] ->
  let meanv := fst (mean_color freq) in
  let closest := snd (mean_color freq) in
  (meanv == mean_count (values freq))%Q /\
  closest <> [] /\
  sublist closest (keys freq) /\
  forall c, In c closest <->
    exists f, In (c, f) freq /\
      forall g, In g (values freq) ->
        (Qabs (inject_Z f - meanv) <= Qabs (inject_Z g - meanv))%Q.
Proof.
  intros Hne. destruct freq as [|cf freq]; [contradiction|]. clear Hne.
  cbv zeta. unfold mean_color. cbn [fst snd].
  set (fr := cf :: freq).
  set (meanv := (inject_Z (py_sum (values fr)) / inject_Z (len (values fr)))%Q).
  assert (S : mean_settled meanv fr (fold_left (mean_step meanv) fr (None, []))).
  { unfold fr. cbn [fold_left]. apply (mean_loop_settled meanv freq [cf]).
    apply mean_step_first. }
  destruct S as (d & _ & (cf0 & Hin0 & E0) & Hmin & Hcl).
  rewrite Hcl.
  assert (Hmem : forall c, In c (map fst (List.filter
                    (fun x => Qeq_bool (mean_dist meanv x) d) fr)) <->
                 exists f, In (c, f) fr /\ (mean_dist meanv (c, f) == d)%Q).
  { intros c. rewrite List.in_map_iff. split.
    - intros ([c' f] & <- & H). apply List.filter_In in H as [H E].
      apply Qeq_bool_iff in E. by exists f.
    - intros (f & H & E). exists (c, f). split; [reflexivity|].
      apply List.filter_In. split; [exact H|]. by apply Qeq_bool_iff. }
  split; [apply meanv_mean_count|]. split; [|split].
  - intros E. destruct cf0 as [c0 f0].
    assert (H : In c0 (map fst (List.filter
                  (fun x => Qeq_bool (mean_dist meanv x) d) fr)))
      by (apply Hmem; by exists f0).
    rewrite E in H. inversion H.
  - apply filter_keys_sublist.
  - intros c. rewrite Hmem. split.
    + intros (f & H & E). exists f. split; [exact H|].
      intros g Hg. apply in_values in Hg as [c' Hg].
      change (mean_dist meanv (c, f) <= mean_dist meanv (c', g))%Q.
      rewrite E. by apply Hmin.
    + intros (f & H & Hall). exists f. split; [exact H|].
      apply Qle_antisym; [|by apply Hmin].
      rewrite <- E0. destruct cf0 as [c0 f0].
      apply (Hall f0). apply in_values. by exists c0.
Qed.

Lemma mean_color_spec_witness :
  snd (mean_color [("RED", 2); ("BLUE", 5); ("X", 4)]%string) <> [].
Proof.
  assert (H : [("RED", 2); ("BLUE", 5); ("X", 4)]%string <> @nil (string * Z))
    by discriminate.
  exact (proj1 (proj2 (mean_color_spec _ H))).
Defined.

Example mean_color_tie :
  snd (mean_color [("RED", 2); ("BLUE", 3); ("X", 1); ("Y", 2)]%string)
  = ["RED"; "Y"]%string.
Proof. reflexivity. Qed.

Section MedianFacts.

Lemma insert_by_count_perm (kv : string * Z) (items : list (string * Z)) :
  insert_by_count kv items ≡ₚ kv :: items.
Proof.
  induction items as [|kv' items IH]; simpl; [reflexivity|].
  destruct (snd kv <=? snd kv'); [reflexivity|].
  rewrite IH. apply perm_swap.
Qed.

Lemma sorted_by_count_perm (freq : counter) : sorted_by_count freq ≡ₚ freq.
Proof.
  induction freq as [|kv freq IH]; simpl; [reflexivity|].
  by rewrite insert_by_count_perm, IH.
Qed.

Lemma insert_by_count_sorted (kv : string * Z) (items : list (string * Z)) :
  Sorted.StronglySorted (fun a b => snd a <= snd b) items ->
  Sorted.StronglySorted (fun a b => snd a <= snd b) (insert_by_count kv items).
Proof.
  induction items as [|kv' items IH]; intros HS; simpl.
  - constructor; [constructor|constructor].
  - apply Sorted.StronglySorted_inv in HS as HS'. destruct HS' as [HS' HF].
    destruct (Z.leb_spec (snd kv) (snd kv')) as [Hle|Hgt].
    + constructor; [exact HS|]. constructor; [exact Hle|].
      eapply Forall_impl; [exact HF|]. intros y Hy. simpl in Hy. lia.
    + constructor; [by apply IH|].
      rewrite insert_by_count_perm. constructor; [lia|exact HF].
Qed.

Lemma sorted_by_count_sorted (freq : counter) :
  Sorted.StronglySorted (fun a b => snd a <= snd b) (sorted_by_count freq).
Proof.
  induction freq as [|kv freq IH]; simpl; [constructor|].
  by apply insert_by_count_sorted.
Qed.

Lemma strongly_sorted_split (l1 l2 : list (string * Z)) (x : string * Z) :
  Sorted.StronglySorted (fun a b => snd a <= snd b) (l1 ++ x :: l2) ->
  Forall (fun y => snd y <= snd x) l1 /\ Forall (fun y => snd x <= snd y) l2.
Proof.
  induction l1 as [|a l1 IH]; simpl; intros HS.
  - apply Sorted.StronglySorted_inv in HS as [_ HF]. by split.
  - apply Sorted.StronglySorted_inv in HS as [HS HF].
    destruct (IH HS) as [H1 H2]. split; [|exact H2].
    constructor; [|exact H1].
    apply Forall_app in HF as [_ HF]. by apply Forall_cons in HF as [HF _].
Qed.

Lemma filter_length_perm {A : Type} (f : A -> bool) (l l' : list A) :
  l ≡ₚ l' -> List.length (List.filter f l) = List.length (List.filter f l').
Proof.
  intros HP. induction HP; simpl; auto.
  - destruct (f x); simpl; auto.
  - destruct (f x), (f y); simpl; auto.
  - congruence.
Qed.

Lemma py_index_in_range {A : Type} (l : list A) (i : Z) :
  0 <= i < len l ->
  exists x, py_index l i = inr x /\ l !! Z.to_nat i = Some x.
Proof.
  intros [H0 H1]. unfold py_index.
  destruct (Z.ltb_spec i 0) as [|_]; [lia|].
  destruct (Z.leb_spec 0 i) as [_|]; [|lia].
  destruct (Z.ltb_spec i (len l)) as [_|]; [|lia]. cbn [andb].
  destruct (l !! Z.to_nat i) as [x|] eqn:E; [by exists x|].
  apply lookup_ge_None in E. unfold len in H1. lia.
Qed.

(** In the sorted items, at most [i] counts lie strictly below the count
    at position [i], and at most [n - 1 - i] strictly above it. *)
Lemma sorted_position (freq : counter) (i : nat) (x : string * Z) :
  sorted_by_count freq !! i = Some x ->
  In x freq /\
  count_where (fun g => g <? snd x) freq <= Z.of_nat i /\
  count_where (fun g => snd x <? g) freq <= len freq - 1 - Z.of_nat i.
Proof.
  intros Hx.
  pose proof (sorted_by_count_perm freq) as HP.
  pose proof (sorted_by_count_sorted freq) as HS.
  pose proof (lookup_lt_Some _ _ _ Hx) as Hi.
  rewrite <- (take_drop_middle _ _ _ Hx) in HS.
  apply strongly_sorted_split in HS as [H1 H2].
  split.
  { rewrite <- list_elem_of_In, <- HP. eapply list_elem_of_lookup_2. exact Hx. }
  unfold count_where, len.
  rewrite <- !(filter_length_perm _ _ _ HP), <- (Permutation_length HP).
  set (s := sorted_by_count freq) in *.
  assert (L1 : List.filter (fun kv => snd kv <? snd x) (drop (S i) s) = []).
  { apply filter_none. intros y Hy. rewrite <- list_elem_of_In in Hy.
    rewrite Forall_forall in H2. specialize (H2 y Hy). simpl in H2. lia. }
  assert (L2 : List.filter (fun kv => snd x <? snd kv) (take i s) = []).
  { apply filter_none. intros y Hy. rewrite <- list_elem_of_In in Hy.
    rewrite Forall_forall in H1. specialize (H1 y Hy). simpl in H1. lia. }
  pose proof (List.filter_length_le (fun kv => snd kv <? snd x) (take i s)) as B1.
  pose proof (List.filter_length_le (fun kv => snd x <? snd kv) (drop (S i) s)) as B2.
  rewrite length_take in B1. rewrite length_drop in B2.
  replace (List.filter (fun kv => snd kv <? snd x) s)
    with (List.filter (fun kv => snd kv <? snd x) (take i s ++ x :: drop (S i) s))
    by (by rewrite take_drop_middle).
  replace (List.filter (fun kv => snd x <? snd kv) s)
    with (List.filter (fun kv => snd x <? snd kv) (take i s ++ x :: drop (S i) s))
    by (by rewrite take_drop_middle).
  rewrite !List.filter_app. cbn [List.filter]. rewrite !Z.ltb_irrefl.
  rewrite !length_app, L1, L2. cbn [List.length].
  lia.
Qed.

End MedianFacts.

(** X10: [median_color] never fails on an index.  It returns no colour
    for the empty table, one colour for an odd number of colours and two
    for an even one.  Every colour it returns is a median of the counts: at
    most half of the colours have a strictly smaller count than it, and at
    most half a strictly greater one. *)
Theorem median_color_spec (freq : counter) :
  exists medians,
    median_color freq = inr medians /\
    match freq with
    | [] => medians = []
    | _ => List.length medians = if Z.odd (len freq) then 1%nat else 2%nat
    end /\
    forall c, In c medians ->
      exists f, In (c, f) freq /\
        2 * count_where (fun g => g <? f) freq <= len freq /\
        2 * count_where (fun g => f <? g) freq <= len freq.
Proof.
  destruct freq as [|kv0 freq0]; [exists []; repeat split; intros c []|].
  set (freq := kv0 :: freq0).
  assert (Hn : len (sorted_by_count freq) = len freq)
    by (unfold len; by rewrite (Permutation_length (sorted_by_count_perm freq))).
  assert (Hpos : 1 <= len freq) by (unfold len, freq; simpl; lia).
  assert (Hmed : forall i x, 0 <= i < len freq ->
            sorted_by_count freq !! Z.to_nat i = Some x ->
            2 * i <= len freq <= 2 * i + 2 ->
            exists f, In (fst x, f) freq /\
              2 * count_where (fun g => g <? f) freq <= len freq /\
              2 * count_where (fun g => f <? g) freq <= len freq).
  { intros i x Hi Hx Hmid. destruct (sorted_position freq _ x Hx) as (Hin & B1 & B2).
    exists (snd x). split; [by destruct x|].
    rewrite Z2Nat.id in B1, B2 by lia.
    split; [lia|]. lia. }
  unfold median_color. fold freq. rewrite Hn.
  pose proof (Z.div_mod (len freq) 2 ltac:(lia)) as Hdm.
  pose proof (Z.mod_pos_bound (len freq) 2 ltac:(lia)) as Hmb.
  destruct (Z.eqb_spec (len freq mod 2) 1) as [Hodd|Heven].
  - destruct (py_index_in_range (sorted_by_count freq) (len freq / 2)) as (x & -> & Hx);
      [rewrite Hn; lia|].
    exists [fst x]. split; [reflexivity|]. split.
    + rewrite Zmod_odd in Hodd. by destruct (Z.odd (len freq)).
    + intros c [<-|[]]. apply (Hmed (len freq / 2) x); [lia|exact Hx|lia].
  - assert (Hz : len freq mod 2 = 0) by lia.
    destruct (py_index_in_range (sorted_by_count freq) (len freq / 2 - 1))
      as (x1 & -> & Hx1); [rewrite Hn; lia|].
    destruct (py_index_in_range (sorted_by_count freq) (len freq / 2))
      as (x2 & -> & Hx2); [rewrite Hn; lia|].
    exists [fst x1; fst x2]. split; [reflexivity|]. split.
    + rewrite Zmod_odd in Hz. by destruct (Z.odd (len freq)).
    + intros c [<-|[<-|[]]].
      * apply (Hmed (len freq / 2 - 1) x1); [lia|exact Hx1|lia].
      * apply (Hmed (len freq / 2) x2); [lia|exact Hx2|lia].
Qed.

Example median_color_even :
  median_color [("RED", 2); ("BLUE", 3); ("X", 1); ("Y", 2)]%string
  = inr ["RED"; "Y"]%string.
Proof. reflexivity. Qed.

Section VarianceZero.

Open Scope Q_scope.

Lemma Qsquare_nonneg (q : Q) : 0 <= q * q.
Proof.
  destruct (Qlt_le_dec q 0) as [Hneg|Hnn].
  - setoid_replace (q * q) with ((- q) * (- q)) using relation Qeq by ring.
    apply Qmult_le_0_compat; apply (Qopp_le_compat _ 0); by apply Qlt_le_weak.
  - by apply Qmult_le_0_compat.
Qed.

Lemma sumQ_ext_in {A : Type} (f g : A -> Q) (xs : list A) :
  (forall x, In x xs -> f x == g x) -> sumQ (map f xs) == sumQ (map g xs).
Proof.
  induction xs as [|x xs IH]; intros H; simpl; [reflexivity|].
  rewrite (H x) by (by left). rewrite IH; [reflexivity|].
  intros y Hy. apply H. by right.
Qed.

Lemma sumQ_zeros {A : Type} (xs : list A) : sumQ (map (fun _ => 0) xs) == 0.
Proof.
  induction xs as [|x xs IH]; simpl; [reflexivity|]. rewrite IH. apply Qplus_0_l.
Qed.

Lemma sumQ_zero_terms {A : Type} (f : A -> Q) (xs : list A) :
  (forall x, 0 <= f x) -> sumQ (map f xs) == 0 -> forall x, In x xs -> f x == 0.
Proof.
  intros Hnn. induction xs as [|y xs IH]; simpl; intros Hs x Hx; [contradiction|].
  pose proof (sumQ_nonneg f xs Hnn) as Hrest.
  assert (Hy : f y == 0).
  { apply Qle_antisym; [|apply Hnn]. rewrite <- Hs.
    rewrite <- (Qplus_0_r (f y)) at 1. apply Qplus_le_compat; [apply Qle_refl|exact Hrest]. }
  destruct Hx as [<-|Hx]; [exact Hy|].
  apply IH; [|exact Hx]. rewrite Hy, Qplus_0_l in Hs. exact Hs.
Qed.

Lemma sumQ_constant (xs : list Z) (c : Z) :
  (forall x, In x xs -> x = c) ->
  sumQ (map inject_Z xs) == inject_Z c * inject_Z (len xs).
Proof.
  unfold len. induction xs as [|x xs IH]; intros H.
  - simpl. by rewrite Qmult_0_r.
  - cbn [map sumQ List.length]. rewrite IH by (intros y Hy; apply H; by right).
    rewrite (H x) by (by left).
    rewrite Nat2Z.inj_succ, <- Z.add_1_r, inject_Z_plus. ring.
Qed.

(** The code's variance of a non-empty table is the population variance of
    its counts. *)
Lemma variance_population (e : string * Z) (freq : counter) :
  variance_of_frequencies (e :: freq) == population_variance (values (e :: freq)).
Proof.
  unfold variance_of_frequencies, population_variance.
  apply Qdiv_comp; [|reflexivity].
  rewrite py_sumQ_sumQ. apply sumQ_ext. intros x.
  change ((inject_Z x - ?m) ^ 2) with ((inject_Z x - m) * (inject_Z x - m)).
  by rewrite meanv_mean_count.
Qed.

End VarianceZero.

(** X11: over exact rationals, the variance of a non-empty table is zero
    exactly when all its counts are equal. *)
Theorem variance_zero_iff_equal_counts (freq : counter) :
  freq <> [] ->
  (variance_of_frequencies freq == 0)%Q <->
  (forall f g, In f (values freq) -> In g (values freq) -> f = g).
Proof.
  intros Hne. destruct freq as [|e freq]; [contradiction|]. clear Hne.
  rewrite variance_population. unfold population_variance.
  set (xs := values (e :: freq)).
  set (mu := mean_count xs).
  assert (Hn : ~ (inject_Z (len xs) == 0)%Q).
  { intros H. unfold Qeq, len, xs, values in H.
    cbn [Qnum Qden inject_Z map List.length] in H. lia. }
  split.
  - intros Hv.
    assert (Hs : (sumQ (map (fun x => (inject_Z x - mu) * (inject_Z x - mu)) xs) == 0)%Q).
    { rewrite <- (Qmult_div_r _ _ Hn). rewrite Hv. apply Qmult_0_r. }
    assert (Ht : forall x, In x xs -> (inject_Z x == mu)%Q).
    { intros x Hx.
      pose proof (sumQ_zero_terms (fun x => (inject_Z x - mu) * (inject_Z x - mu))%Q xs
                    (fun x => Qsquare_nonneg _) Hs x Hx) as H0.
      simpl in H0. apply Qmult_integral in H0.
      assert (H1 : (inject_Z x - mu == 0)%Q) by tauto.
      rewrite <- (Qplus_0_l mu), <- H1. ring. }
    intros f g Hf Hg. apply inject_Z_injective. by rewrite (Ht f Hf), (Ht g Hg).
  - intros Heq.
    assert (Hc : forall x, In x xs -> x = snd e).
    { intros x Hx. apply Heq; [exact Hx|]. by left. }
    assert (Hmu : (mu == inject_Z (snd e))%Q).
    { unfold mu, mean_count. rewrite (sumQ_constant xs (snd e) Hc).
      by apply Qdiv_mult_l. }
    rewrite (sumQ_ext_in _ (fun _ => 0%Q)).
    + rewrite sumQ_zeros. unfold Qdiv. apply Qmult_0_l.
    + intros x Hx. rewrite (Hc x Hx), Hmu. ring.
Qed.

Lemma variance_zero_iff_equal_counts_witness :
  Qeq (variance_of_frequencies [("RED", 4); ("BLUE", 4)]%string) 0%Q <->
  (forall f g, In f (values [("RED", 4); ("BLUE", 4)]%string) ->
               In g (values [("RED", 4); ("BLUE", 4)]%string) -> f = g).
Proof.
  apply (variance_zero_iff_equal_counts [("RED", 4); ("BLUE", 4)]%string).
  discriminate.
Defined.

Section Divisions.

Lemma py_truediv_nonzero (a : Q) (b : Z) :
  b <> 0 -> py_truediv a b = inr (a / inject_Z b)%Q.
Proof. intros H. unfold py_truediv. by destruct (Z.eqb_spec b 0). Qed.

Lemma len_cons_nonzero {A : Type} (x : A) (l : list A) : len (x :: l) <> 0.
Proof. unfold len. simpl. lia. Qed.

(** The divisor of [mean_color] is the number of entries of a non-empty
    table. *)
Lemma mean_color_run_returns (freq : counter) :
  mean_color_run freq = inr (mean_color freq).
Proof.
  destruct freq as [|e freq]; [reflexivity|].
  unfold mean_color_run, mean_color, values. cbn [map].
  by rewrite (py_truediv_nonzero _ _ (len_cons_nonzero _ _)).
Qed.

Lemma variance_run_returns (freq : counter) :
  variance_run freq = inr (variance_of_frequencies freq).
Proof.
  destruct freq as [|e freq]; [reflexivity|].
  unfold variance_run, variance_of_frequencies, values. cbn [map].
  rewrite (py_truediv_nonzero _ _ (len_cons_nonzero _ _)).
  by rewrite (py_truediv_nonzero _ _ (len_cons_nonzero _ _)).
Qed.

(** No division of [main] raises. *)
Lemma main_run_returns (rows : list string) :
  main_run rows = inr <$> main_figures rows.
Proof.
  destruct rows as [|r rows]; [reflexivity|].
  unfold main_run, main_figures. cbn [fmap option_fmap option_map].
  rewrite mean_color_run_returns, variance_run_returns. cbn zeta.
  destruct (Z.gtb_spec (py_sum (values (Counter (flatten_colors (r :: rows))))) 0)
    as [Hpos|_]; [|reflexivity].
  rewrite py_truediv_nonzero by lia. reflexivity.
Qed.

End Divisions.

(** X12: a run of [main] on parsed rows divides by zero nowhere: run with
    Python's division, which raises on a divisor 0, it reaches the same
    figures.  The total is 0 exactly when the rows hold no colour name at
    all (only commas and white space), and such a run reports an empty
    table, no mode, variance 0, no RED and probability 0. *)
Theorem main_without_observation (rows : list string) (fg : figures) :
  main_figures rows = Some fg ->
  main_run rows = Some (inr fg) /\
  (fig_total fg = 0 <-> observations rows = []) /\
  (fig_total fg = 0 ->
     fig_freq fg = [] /\ fig_modes fg = ([], 0) /\ fig_var_freq fg = 0%Q /\
     fig_red_count fg = 0 /\ fig_prob_red fg = 0%Q).
Proof.
  intros Hmain. split; [by rewrite main_run_returns, Hmain|].
  destruct rows as [|r rows]; [discriminate|].
  unfold main_figures in Hmain. injection Hmain as <-.
  cbn [fig_freq fig_red_count fig_total fig_prob_red fig_modes fig_var_freq].
  set (rs := r :: rows) in *.
  destruct (Counter_invariant (flatten_colors rs)) as (_ & _ & S & _).
  assert (Hlen : py_sum (values (Counter (flatten_colors rs))) = len (observations rs)).
  { rewrite S, flatten_colors_observations. unfold len. by rewrite length_map. }
  assert (Hiff : py_sum (values (Counter (flatten_colors rs))) = 0
                 <-> observations rs = []).
  { rewrite Hlen. unfold len. destruct (observations rs); simpl; split;
      try reflexivity; try discriminate; lia. }
  split; [exact Hiff|]. intros Hz.
  apply Hiff in Hz as Hobs.
  assert (Hflat : flatten_colors rs = [])
    by (by rewrite flatten_colors_observations, Hobs).
  rewrite Hflat. repeat split.
Qed.

Lemma main_without_observation_witness :
  exists fg, main_figures [" , "; ","]%string = Some fg /\
             main_run [" , "; ","]%string = Some (inr fg) /\
             (fig_total fg = 0 <-> observations [" , "; ","]%string = []).
Proof.
  eexists. split; [reflexivity|].
  pose proof (main_without_observation [" , "; ","]%string _ eq_refl) as (R & T & _).
  split; [exact R|exact T].
Defined.

(** The guard of the source is what keeps the last division safe: at a
    total of 0 the division itself raises. *)
Example py_truediv_by_zero : py_truediv (inject_Z 0) 0 = inl ZeroDivisionError.
Proof. reflexivity. Qed.

(** * More on [save_to_postgres]: what is committed, and when *)

Section CommitFacts.

Lemma keeps_bind {A B : Type} (c : M A) (k : A -> M B) :
  keeps_databases c -> (forall a, keeps_databases (k a)) -> keeps_databases (bind c k).
Proof.
  intros Hc Hk w. unfold bind. specialize (Hc w).
  destruct (c w) as [[e|a] w1]; simpl in *; [exact Hc|].
  by rewrite Hk.
Qed.

Lemma keeps_driver (c : call) : keeps_databases (driver c).
Proof. intros w. unfold driver. by destruct (faults w _). Qed.

Lemma keeps_connect (p : conn_params) : keeps_databases (connect p).
Proof.
  unfold connect. apply keeps_bind; [apply keeps_driver|]. intros _.
  apply keeps_bind; [by intros w|]. intros w0.
  destruct (databases w0 !! key_of p); by intros w.
Qed.

Lemma keeps_execute (q : stmt) : keeps_databases (execute q).
Proof.
  unfold execute. apply keeps_bind; [apply keeps_driver|]. intros _.
  apply keeps_bind; [by intros w|]. intros w0.
  destruct (session w0) as [[k t]|]; [|by intros w].
  destruct q as [|color frequency]; [by intros w|].
  destruct (has_nul color); [by intros w|].
  destruct t; [|by intros w]. destruct (int4 frequency); by intros w.
Qed.

Lemma keeps_for_each {A : Type} (body : A -> M unit) (l : list A) :
  (forall x, keeps_databases (body x)) -> keeps_databases (for_each l body).
Proof.
  intros H. induction l as [|x l IH]; simpl; [by intros w|].
  apply keeps_bind; [apply H|intros _; exact IH].
Qed.

Lemma keeps_conn_close : keeps_databases conn_close.
Proof.
  unfold conn_close. apply keeps_bind; [apply keeps_driver|]. by intros _ w.
Qed.

Lemma keeps_print (line : string) : keeps_databases (print line).
Proof. by intros w. Qed.

(** A commit that raises commits nothing. *)
Lemma commit_raises (w w' : world) (e : exn) :
  commit w = (inl e, w') -> databases w' = databases w.
Proof.
  unfold commit, bind, driver, get_world.
  destruct (faults w _); simpl; [by intros [= _ <-]|].
  destruct (session w) as [[k t]|]; simpl; [discriminate|]. by intros [= _ <-].
Qed.

(** Use the outcome [H : c w = (r, w1)] of a step that keeps the
    databases. *)
Ltac kept K w H :=
  let D := fresh "D" in
  pose proof (K w) as D; rewrite H in D; cbn [snd] in D.

(** The committed state after the [try] block, whatever its outcome, is
    the state before or the state with all upserts. *)
Lemma save_body_all_or_nothing (freq : counter) (dbname : string) (w : world) :
  let r := save_body freq dbname w in
  (databases (snd r) = databases w \/ databases (snd r) = saved freq dbname w) /\
  (returned (fst r) -> databases (snd r) = saved freq dbname w).
Proof.
  cbv zeta. unfold save_body. unfold bind.
  destruct (connect (connection_used dbname) w) as [[e|u1] w1] eqn:H1;
    kept (keeps_connect (connection_used dbname)) w H1; cbn [fst snd];
    [split; [by left|intros []]|].
  apply connect_returns in H1 as (_ & t0 & L0 & S1).
  destruct (cursor w1) as [[e|u2] w2] eqn:H2;
    kept (keeps_driver OpenCursor : keeps_databases cursor) w1 H2; cbn [fst snd];
    [split; [left; congruence|intros []]|].
  apply driver_returns in H2 as [_ S2].
  destruct (execute CreateTableIfNotExists w2) as [[e|u3] w3] eqn:H3;
    kept (keeps_execute CreateTableIfNotExists) w2 H3; cbn [fst snd];
    [split; [left; congruence|intros []]|].
  apply execute_returns in H3 as (_ & k3 & t3 & S3 & S3').
  rewrite S2, S1 in S3. injection S3 as <- <-.
  destruct (for_each freq (fun '(color, count) => execute (Upsert color count)) w3)
    as [[e|[]] w4] eqn:H4;
    kept (keeps_for_each (fun '(color, count) => execute (Upsert color count)) freq
            (fun x => match x with (color, count) => keeps_execute (Upsert color count) end)) w3 H4;
    cbn [fst snd]; [split; [left; congruence|intros []]|].
  destruct (upsert_loop_returns _ _ _ _ _ H4 S3') as [_ S4].
  destruct (commit w4) as [[e|u5] w5] eqn:H5; cbn [fst snd].
  { apply commit_raises in H5. split; [left; congruence|intros []]. }
  apply commit_returns in H5 as (k5 & t5 & S5 & D5).
  rewrite S4 in S5. injection S5 as <- <-.
  assert (E5 : databases w5 = saved freq dbname w).
  { unfold saved. rewrite L0, D5. congruence. }
  destruct (cursor_close w5) as [[e|u6] w6] eqn:H6;
    kept (keeps_driver CloseCursor : keeps_databases cursor_close) w5 H6; cbn [fst snd];
    [split; [right; congruence|intros []]|].
  destruct (conn_close w6) as [[e|u7] w7] eqn:H7;
    kept keeps_conn_close w6 H7; cbn [fst snd];
    [split; [right; congruence|intros []]|].
  cbn [print update databases set_stdout fst snd].
  split; [right; congruence|intros _; congruence].
Qed.

Lemma upsert_all_keeps (freq : counter) (rows : gmap string Z) (c : string) :
  is_Some (rows !! c) -> is_Some (upsert_all freq rows !! c).
Proof.
  unfold upsert_all. revert rows.
  induction freq as [|[k n] freq IH]; intros rows H; simpl; [exact H|].
  apply IH. destruct (decide (k = c)) as [->|Hne].
  - rewrite lookup_insert_eq. by eexists.
  - by rewrite lookup_insert_ne.
Qed.

Lemma upsert_all_idempotent (freq : counter) (rows : gmap string Z) :
  counter_wf freq -> upsert_all freq (upsert_all freq rows) = upsert_all freq rows.
Proof.
  intros Hwf. apply map_eq. intros c.
  destruct (decide (c ∈ keys freq)) as [Hin|Hnot]; rewrite list_elem_of_In in *.
  - unfold keys in Hin. apply List.in_map_iff in Hin as ([c' n] & <- & Hin).
    by rewrite !(upsert_all_entry _ _ _ _ Hwf Hin).
  - by rewrite !upsert_all_other.
Qed.

End CommitFacts.

Section QuietFacts.











Lemma color_frequencies_saved (freq : counter) (dbname : string) (w w' : world)
    (t0 : option (gmap string Z)) :
  databases w !! key_of (connection_used dbname) = Some t0 ->
  databases w' = saved freq dbname w ->
  color_frequencies w' (key_of (connection_used dbname))
  = upsert_all freq (color_frequencies w (key_of (connection_used dbname))) /\
  forall k', k' <> key_of (connection_used dbname) ->
             databases w' !! k' = databases w !! k'.
Proof.
  intros L0 D. unfold saved in D. rewrite L0 in D. split.
  - unfold color_frequencies. rewrite D, lookup_insert_eq, L0. by destruct t0.
  - intros k' Hk. rewrite D. by apply lookup_insert_ne.
Qed.

End QuietFacts.

Lemma save_to_postgres_all_or_nothing_aux (freq : counter)
    (dbname user password host port : string) (w : world) :
  (databases (snd (save_to_postgres freq dbname user password host port w))
     = databases w \/
   databases (snd (save_to_postgres freq dbname user password host port w))
     = saved freq dbname w) /\
  (returned (fst (save_body freq dbname w)) ->
   databases (snd (save_to_postgres freq dbname user password host port w))
     = saved freq dbname w).
Proof.
  destruct (save_to_postgres_worlds freq dbname user password host port w) as (D & _ & _).
  rewrite D. apply save_body_all_or_nothing.
Qed.

(** X13: [save_to_postgres] commits all or nothing: after a run, whatever
    went wrong and wherever, the committed state is the state before the run
    or the state with every upsert applied, never a part of the upserts;
    it is the latter when the [try] block returned. *)
Theorem save_to_postgres_all_or_nothing (freq : counter)
    (dbname user password host port : string) (w : world) :
  (databases (snd (save_to_postgres freq dbname user password host port w))
     = databases w \/
   databases (snd (save_to_postgres freq dbname user password host port w))
     = saved freq dbname w) /\
  (returned (fst (save_body freq dbname w)) ->
   databases (snd (save_to_postgres freq dbname user password host port w))
     = saved freq dbname w).
Proof.
  exact (save_to_postgres_all_or_nothing_aux freq dbname user password host port w).
Qed.



(** X15: when the database that the connection reaches (the one named
    [dbname] or, for an empty [dbname], the one named after the user
    "postgres") does not exist on the local server, the run ends in the
    handler with an error line and commits nothing; in an environment
    without faults the line carries the text of the server's refusal. *)
Theorem save_to_postgres_missing_database (freq : counter)
    (dbname user password host port : string) (w : world) :
  databases w !! key_of (connection_used dbname) = None ->
  (exists e,
     fst (save_body freq dbname w) = inl e /\
     stdout (snd (save_to_postgres freq dbname user password host port w))
       = stdout w ++ [error_message e]) /\
  databases (snd (save_to_postgres freq dbname user password host port w))
    = databases w /\
  (fault_free w ->
   stdout (snd (save_to_postgres freq dbname user password host port w))
     = stdout w ++
       [error_message (refused w (NoSuchDatabase (key_of (connection_used dbname))))]).
Proof.
  intros L.
  destruct (save_to_postgres_worlds freq dbname user password host port w) as (D & _ & O).
  split; [|split].
  - destruct (save_body freq dbname w) as [[e|[]] w1] eqn:E.
    + exists e. by split.
    + apply save_body_returns in E as (t0 & L0 & _). congruence.
  - rewrite D.
    destruct (save_body_all_or_nothing freq dbname w) as [[H|H] _]; [exact H|].
    rewrite H. unfold saved. by rewrite L.
  - intros H. rewrite O.
    unfold save_body, connect, bind, driver, get_world. rewrite (H _). cbn.
    by rewrite L.
Qed.

Lemma save_to_postgres_missing_database_witness :
  databases (snd (save_to_postgres [("RED", 2)]%string "nowhere" "u" "p" "h" "1" demo_world))
    = databases demo_world.
Proof.
  assert (L : databases demo_world !! key_of (connection_used "nowhere") = None)
    by reflexivity.
  exact (proj1 (proj2 (save_to_postgres_missing_database [("RED", 2)]%string
                         "nowhere" "u" "p" "h" "1" demo_world L))).
Defined.

(** With an empty [dbname] the run reaches the database named after the
    user. *)
Example save_to_postgres_empty_dbname :
  color_frequencies
    (snd (save_to_postgres [("RED", 2)]%string "" "u" "p" "h" "1"
            (quiet_world "postgres" None)))
    ("localhost", "5432", "postgres")%string !! "RED"%string = Some 2.
Proof. reflexivity. Qed.

Section RefusedEntries.






End RefusedEntries.



(** The server's answer to a count of 2^31: the error line carries its
    refusal, and the entry saved before it in the same transaction is not
    committed. *)
Example save_to_postgres_integer_out_of_range :
  stdout (snd (save_to_postgres [("RED", 2); ("BIG", 2147483648)]%string
                 "colors_db" "u" "p" "h" "1" demo_world))
    = [error_message (refused demo_world (IntegerOutOfRange 2147483648))] /\
  color_frequencies
    (snd (save_to_postgres [("RED", 2); ("BIG", 2147483648)]%string
            "colors_db" "u" "p" "h" "1" demo_world))
    ("localhost", "5432", "colors_db")%string !! "RED"%string = Some 7.
Proof. split; reflexivity. Qed.

(** X16: saving the same table twice is the same as saving it once: a
    second run that returns, right after a first one that returned, leaves
    the committed state as it was. *)
Theorem save_to_postgres_idempotent (freq : counter)
    (dbname user password host port : string) (w : world) :
  counter_wf freq ->
  returned (fst (save_body freq dbname w)) ->
  returned (fst (save_body freq dbname
                   (snd (save_to_postgres freq dbname user password host port w)))) ->
  databases (snd (save_to_postgres freq dbname user password host port
                    (snd (save_to_postgres freq dbname user password host port w))))
  = databases (snd (save_to_postgres freq dbname user password host port w)).
Proof.
  intros Hwf R1 R2.
  set (w1 := snd (save_to_postgres freq dbname user password host port w)) in *.
  pose proof (proj2 (save_to_postgres_all_or_nothing_aux freq dbname user password host port w) R1)
    as D1.
  pose proof (proj2 (save_to_postgres_all_or_nothing_aux freq dbname user password host port w1) R2)
    as D2.
  fold w1 in D1. rewrite D2. unfold saved at 1. rewrite D1. unfold saved.
  destruct (databases w !! key_of (connection_used dbname)) as [t0|] eqn:L0.
  - rewrite lookup_insert_eq.
    change (default ∅ (Some (upsert_all freq (default ∅ t0))))
      with (upsert_all freq (default ∅ t0)).
    rewrite upsert_all_idempotent by exact Hwf. apply insert_insert_eq.
  - by rewrite L0.
Qed.

Lemma save_to_postgres_idempotent_witness :
  databases (snd (save_to_postgres [("RED", 2)]%string "colors_db" "u" "p" "h" "1"
               (snd (save_to_postgres [("RED", 2)]%string "colors_db" "u" "p" "h" "1"
                       demo_world))))
  = databases (snd (save_to_postgres [("RED", 2)]%string "colors_db" "u" "p" "h" "1"
                      demo_world)).
Proof.
  assert (W : counter_wf [("RED", 2)]%string).
  { unfold counter_wf. apply (bool_decide_unpack _). vm_compute. exact I. }
  apply (save_to_postgres_idempotent [("RED", 2)]%string "colors_db" "u" "p" "h" "1"
           demo_world W); exact I.
Defined.

(** X17: [save_to_postgres] never removes anything: after a run, whatever
    its outcome, every database of the server is still there and every row
    that was in a [color_frequencies] table is still in it. *)
Theorem save_to_postgres_never_deletes (freq : counter)
    (dbname user password host port : string) (w : world) (k : db_key) (c : string) :
  (is_Some (databases w !! k) ->
   is_Some (databases (snd (save_to_postgres freq dbname user password host port w)) !! k)) /\
  (is_Some (color_frequencies w k !! c) ->
   is_Some (color_frequencies
              (snd (save_to_postgres freq dbname user password host port w)) k !! c)).
Proof.
  set (w' := snd (save_to_postgres freq dbname user password host port w)).
  destruct (save_to_postgres_all_or_nothing_aux freq dbname user password host port w)
    as [[D|D] _]; fold w' in D.
  - unfold color_frequencies. rewrite D. by split.
  - destruct (databases w !! key_of (connection_used dbname)) as [t0|] eqn:L0.
    + destruct (color_frequencies_saved freq dbname w w' t0 L0 D) as [T F].
      destruct (decide (k = key_of (connection_used dbname))) as [->|Hk].
      * split.
        -- intros _. unfold saved in D. rewrite L0 in D. rewrite D, lookup_insert_eq.
           by eexists.
        -- rewrite T. apply upsert_all_keeps.
      * unfold color_frequencies. rewrite (F k Hk). by split.
    + unfold saved in D. rewrite L0 in D. unfold color_frequencies. rewrite D. by split.
Qed.

(** X18: when the table [color_frequencies] did not exist yet, a run that
    returns creates it with exactly the entries of the input table. *)
Theorem save_to_postgres_fresh_table (freq : counter)
    (dbname user password host port : string) (w : world) :
  counter_wf freq ->
  databases w !! key_of (connection_used dbname) = Some None ->
  returned (fst (save_body freq dbname w)) ->
  forall c n,
    color_frequencies (snd (save_to_postgres freq dbname user password host port w))
      (key_of (connection_used dbname)) !! c = Some n
    <-> In (c, n) freq.
Proof.
  intros Hwf L0 R c n.
  pose proof (proj2 (save_to_postgres_all_or_nothing_aux
                       freq dbname user password host port w) R) as D.
  destruct (color_frequencies_saved freq dbname w _ None L0 D) as [T _].
  rewrite T. unfold color_frequencies at 1. rewrite L0.
  split.
  - intros H. destruct (decide (c ∈ keys freq)) as [Hin|Hnot];
      rewrite list_elem_of_In in *.
    + unfold keys in Hin. apply List.in_map_iff in Hin as ([c' n'] & <- & Hin).
      rewrite (upsert_all_entry _ _ _ _ Hwf Hin) in H. by injection H as <-.
    + rewrite upsert_all_other in H by exact Hnot. by rewrite lookup_empty in H.
  - by apply upsert_all_entry.
Qed.

Lemma save_to_postgres_fresh_table_witness :
  color_frequencies
    (snd (save_to_postgres [("RED", 2)]%string "new_db" "u" "p" "h" "1"
            (quiet_world "new_db" None)))
    (key_of (connection_used "new_db")) !! "RED"%string = Some 2.
Proof.
  assert (W : counter_wf [("RED", 2)]%string).
  { unfold counter_wf. apply (bool_decide_unpack _). vm_compute. exact I. }
  assert (L : databases (quiet_world "new_db" None) !! key_of (connection_used "new_db")
              = Some None) by reflexivity.
  apply (save_to_postgres_fresh_table [("RED", 2)]%string "new_db" "u" "p" "h" "1"
           (quiet_world "new_db" None) W L I).
  by left.
Defined.

(** * More on the exercises *)

Section SearchAnywhere.

Lemma list_item_in_range (lst : list Z) (index : Z) :
  - len lst <= index < len lst -> exists x, list_item lst index = inr x.
Proof.
  intros H. unfold list_item.
  set (j := if index <? 0 then index + len lst else index).
  assert (Hj : 0 <= j < len lst)
    by (unfold j; destruct (Z.ltb_spec index 0); lia).
  destruct (Z.leb_spec 0 j) as [_|]; [|lia].
  destruct (Z.ltb_spec j (len lst)) as [_|]; [|lia]. cbn [andb].
  destruct (lst !! Z.to_nat j) as [x|] eqn:E; [by exists x|].
  apply lookup_ge_None in E. unfold len in Hj. lia.
Qed.

Lemma list_item_below (lst : list Z) (index : Z) :
  index < - len lst -> list_item lst index = inl IndexError.
Proof.
  intros H. unfold list_item.
  assert (0 <= len lst) by (unfold len; lia).
  destruct (Z.ltb_spec index 0) as [_|]; [|lia].
  destruct (Z.leb_spec 0 (index + len lst)) as [|_]; [lia|]. reflexivity.
Qed.

(** From an index that is not below [-len(lst)] the search returns, and
    what it returns is -1 or a position, not before the start, that holds
    the target. *)
Lemma recursive_search_returns (lst : list Z) (target : Z) (k : nat) (index : Z) :
  (Z.to_nat (len lst - index) <= k)%nat ->
  - len lst <= index ->
  exists r, recursive_search lst target index = inr r /\
            (r = -1 \/ (index <= r < len lst /\ list_item lst r = inr target)).
Proof.
  revert index. induction k as [|k IH]; intros index Hk Hlow;
    rewrite recursive_search_step;
    destruct (Z_ge_dec index (len lst)) as [Hge|Hlt]; try (exists (-1); by auto); try lia.
  destruct (list_item_in_range lst index ltac:(lia)) as [x Hx]. rewrite Hx.
  destruct (Z.eqb_spec x target) as [->|Hne].
  - exists index. split; [reflexivity|]. right. split; [lia|exact Hx].
  - destruct (IH (index + 1) ltac:(lia) ltac:(lia)) as (r & -> & Hr).
    exists r. split; [reflexivity|]. destruct Hr as [->|[Hr1 Hr2]]; [by left|].
    right. split; [lia|exact Hr2].
Qed.

End SearchAnywhere.

(** X19: [recursive_search] raises [IndexError] exactly when it is started
    at an index below [-len(lst)]; otherwise it returns -1 or an index, not
    before the start, at which the list holds the target. *)
Theorem recursive_search_index_error (lst : list Z) (target index : Z) :
  (recursive_search lst target index = inl IndexError <-> index < - len lst) /\
  (forall r, recursive_search lst target index = inr r ->
     r = -1 \/ (index <= r < len lst /\ list_item lst r = inr target)).
Proof.
  destruct (Z_lt_le_dec index (- len lst)) as [Hlow|Hok].
  - assert (E : recursive_search lst target index = inl IndexError).
    { rewrite recursive_search_step.
      assert (0 <= len lst) by (unfold len; lia).
      destruct (Z_ge_dec index (len lst)); [lia|].
      by rewrite list_item_below. }
    split; [by split|]. intros r Hr. congruence.
  - destruct (recursive_search_returns lst target _ index (Nat.le_refl _) Hok)
      as (r & E & Hr).
    split.
    + split; [congruence|lia].
    + intros r' Hr'. rewrite E in Hr'. injection Hr' as <-. exact Hr.
Qed.

Example recursive_search_wraps : recursive_search [1; 2; 3] 1 (-1) = inr 0.
Proof. reflexivity. Qed.

Example recursive_search_too_low : recursive_search [1; 2; 3] 1 (-4) = inl IndexError.
Proof. reflexivity. Qed.

(** X20: started at any index [index >= 0] with [frames] nested calls
    left on the call stack, [recursive_search] looks at the positions from
    [index] on only.  It returns the first position at or after [index]
    that holds the target when fewer than [frames] positions lie before it
    from [index]; it returns -1 when no such position holds the target and
    fewer than [frames] positions remain (in particular when [index] is
    past the end and a frame is left); otherwise it raises
    [RecursionError]. *)
Theorem recursive_search_from_index (frames : nat) (lst : list Z) (target index : Z) :
  0 <= index ->
  (~ In target (drop (Z.to_nat index) lst) ->
     recursive_search_run frames lst target index =
       if (List.length (drop (Z.to_nat index) lst) <? frames)%nat
       then Returns (-1) else RecursionError) /\
  (In target (drop (Z.to_nat index) lst) ->
     exists i : nat,
       (Z.to_nat index <= i)%nat /\ lst !! i = Some target /\
       (forall j, (Z.to_nat index <= j < i)%nat -> lst !! j <> Some target) /\
       recursive_search_run frames lst target index =
         if (i - Z.to_nat index <? frames)%nat
         then Returns (Z.of_nat i) else RecursionError).
Proof.
  intros H0. set (n := Z.to_nat index).
  destruct (Z_ge_dec index (len lst)) as [Hge|Hlt].
  - assert (Hd : drop n lst = []) by (apply drop_ge; unfold len in Hge; lia).
    rewrite Hd. split; [|intros []].
    intros _. destruct frames as [|frames]; [reflexivity|].
    cbn [recursive_search_run].
    by destruct (Z_ge_dec index (len lst)).
  - assert (Hn : (n <= List.length lst)%nat) by (unfold len in Hlt; lia).
    pose proof (recursive_search_run_from (drop n lst) (take n lst) target frames) as R.
    rewrite take_drop in R.
    replace (len (take n lst)) with index in R
      by (unfold len; rewrite length_take; lia).
    split.
    + intros Hnot. apply first_index_None in Hnot. by rewrite R, Hnot.
    + intros Hin. destruct (first_index target (drop n lst)) as [j|] eqn:E.
      * apply first_index_Some in E as [Hj Hmin]. rewrite lookup_drop in Hj.
        exists (n + j)%nat. split; [lia|]. split; [exact Hj|]. split.
        -- intros j' Hj'. specialize (Hmin (j' - n)%nat ltac:(lia)).
           rewrite lookup_drop in Hmin.
           by replace (n + (j' - n))%nat with j' in Hmin by lia.
        -- rewrite R. replace (n + j - n)%nat with j by lia.
           destruct (j <? frames)%nat; [|reflexivity]. f_equal. lia.
      * apply first_index_None in E. contradiction.
Qed.

Lemma recursive_search_from_index_witness :
  exists i : nat,
    (Z.to_nat 1 <= i)%nat /\ [7; 5; 7; 9] !! i = Some 7 /\
    (forall j, (Z.to_nat 1 <= j < i)%nat -> [7; 5; 7; 9] !! j <> Some 7) /\
    recursive_search_run 2 [7; 5; 7; 9] 7 1 =
      if (i - Z.to_nat 1 <? 2)%nat then Returns (Z.of_nat i) else RecursionError.
Proof.
  apply (proj2 (recursive_search_from_index 2 [7; 5; 7; 9] 7 1 ltac:(lia))).
  simpl. right. by left.
Defined.

Example recursive_search_run_from_index :
  recursive_search_run 2 [7; 5; 7; 9] 7 1 = Returns 2 /\
  recursive_search_run 1 [7; 5; 7; 9] 7 1 = RecursionError /\
  recursive_search_run 1 [7; 5; 7; 9] 7 4 = Returns (-1).
Proof. repeat split. Qed.

Section FibonacciMore.

Lemma fib_nonneg (k : nat) : 0 <= fib k /\ 0 <= fib (S k).
Proof.
  induction k as [|k [IH1 IH2]]; [simpl; lia|].
  split; [exact IH2|]. rewrite fib_recurrence. lia.
Qed.

Lemma fib_prefix_sum_mono (n m : nat) :
  (n <= m)%nat -> 0 <= fib_prefix_sum n <= fib_prefix_sum m.
Proof.
  intros H. split.
  - clear H. induction n as [|n IH]; simpl; [lia|].
    pose proof (fib_nonneg n). lia.
  - induction H as [|m H IH]; [lia|]. simpl. pose proof (fib_nonneg m). lia.
Qed.

Lemma sum_first_n_fibonacci_prefix (n : Z) :
  sum_first_n_fibonacci n = fib_prefix_sum (Z.to_nat n).
Proof. exact (fib_loop_prefix (Z.to_nat n) 0). Qed.

End FibonacciMore.

(** X21: [sum_first_n_fibonacci] is 0 for every [n <= 0] (the loop does
    not run), it never decreases when [n] grows, and for [n >= 0] it
    satisfies [S(n+2) = S(n+1) + S(n) + 1]. *)
Theorem sum_first_n_fibonacci_shape (n m : Z) :
  (n <= 0 -> sum_first_n_fibonacci n = 0) /\
  (n <= m -> 0 <= sum_first_n_fibonacci n <= sum_first_n_fibonacci m) /\
  (0 <= n ->
     sum_first_n_fibonacci (n + 2)
     = sum_first_n_fibonacci (n + 1) + sum_first_n_fibonacci n + 1).
Proof.
  rewrite !sum_first_n_fibonacci_prefix. split; [|split].
  - intros H. by replace (Z.to_nat n) with O by lia.
  - intros H. apply fib_prefix_sum_mono. lia.
  - intros H.
    replace (Z.to_nat (n + 2)) with (S (S (Z.to_nat n))) by lia.
    replace (Z.to_nat (n + 1)) with (S (Z.to_nat n)) by lia.
    cbn [fib_prefix_sum]. rewrite (fib_prefix_sum_closed (Z.to_nat n)). lia.
Qed.

Section BinaryFacts.

Lemma bit_str_char (b : bool) : bit_str b = String (bit_char b) EmptyString.
Proof. by destruct b. Qed.

Lemma join_bits_cons (b : bool) (bs : list bool) :
  join (map bit_str (b :: bs)) = String (bit_char b) (join (map bit_str bs)).
Proof. simpl. by rewrite bit_str_char. Qed.

Lemma join_bits_length (bs : list bool) :
  String.length (join (map bit_str bs)) = List.length bs.
Proof.
  induction bs as [|b bs IH]; [reflexivity|].
  rewrite join_bits_cons. simpl. by rewrite IH.
Qed.

Lemma join_bits_char_at (bs : list bool) (i : nat) :
  char_at (join (map bit_str bs)) i = bit_char <$> bs !! i.
Proof.
  revert i. induction bs as [|b bs IH]; intros i; [by destruct i|].
  rewrite join_bits_cons. destruct i as [|i]; [reflexivity|]. simpl. apply IH.
Qed.

Lemma binary_value_bits (bs : list bool) (acc : Z) :
  binary_value acc (join (map bit_str bs))
  = Some (fold_left (fun a b => 2 * a + Z.b2z b) bs acc).
Proof.
  revert acc. induction bs as [|b bs IH]; intros acc; [reflexivity|].
  rewrite join_bits_cons. cbn [binary_value fold_left].
  destruct b; simpl; rewrite IH; do 2 f_equal; lia.
Qed.

Lemma bits_value_snoc (bs : list bool) (b : bool) :
  bits_value (bs ++ [b]) = 2 * bits_value bs + Z.b2z b.
Proof. unfold bits_value. by rewrite fold_left_app. Qed.

Lemma bits_value_bounds (bs : list bool) :
  0 <= bits_value bs < 2 ^ len bs.
Proof.
  induction bs as [|b bs IH] using rev_ind; [unfold bits_value, len; simpl; lia|].
  rewrite bits_value_snoc. unfold len in *. rewrite length_app. cbn [List.length].
  replace (Z.of_nat (List.length bs + 1)) with (Z.succ (Z.of_nat (List.length bs))) by lia.
  rewrite Z.pow_succ_r by lia. destruct b; simpl; lia.
Qed.

(** The digit at position [i] is the bit of weight [2^(n-1-i)]. *)
Lemma bits_value_testbit (bs : list bool) (i : nat) (b : bool) :
  bs !! i = Some b -> Z.testbit (bits_value bs) (len bs - 1 - Z.of_nat i) = b.
Proof.
  revert i. induction bs as [|c bs IH] using rev_ind; intros i Hi; [by destruct i|].
  rewrite bits_value_snoc. unfold len in *. rewrite length_app. cbn [List.length].
  pose proof (lookup_lt_Some _ _ _ Hi) as Hlt. rewrite length_app in Hlt. simpl in Hlt.
  destruct (decide (i = List.length bs)) as [->|Hne].
  - rewrite list_lookup_middle in Hi by reflexivity. injection Hi as ->.
    replace (Z.of_nat (List.length bs + 1) - 1 - Z.of_nat (List.length bs)) with 0 by lia.
    apply Z.testbit_0_r.
  - rewrite lookup_app_l in Hi by lia.
    replace (Z.of_nat (List.length bs + 1) - 1 - Z.of_nat i)
      with (Z.succ (Z.of_nat (List.length bs) - 1 - Z.of_nat i)) by lia.
    rewrite Z.testbit_succ_r by lia. by apply IH.
Qed.

Lemma draws_length (rng : nat -> bool) (n_digits : Z) :
  List.length (draws rng n_digits) = Z.to_nat n_digits.
Proof. unfold draws. by rewrite length_map, length_seq. Qed.

Lemma draws_lookup (rng : nat -> bool) (n_digits : Z) (i : nat) :
  (i < Z.to_nat n_digits)%nat -> draws rng n_digits !! i = Some (rng i).
Proof.
  intros H. unfold draws. rewrite list_lookup_fmap.
  by rewrite lookup_seq_lt.
Qed.

(** The outcome of [random_binary_to_decimal] in terms of the bits drawn. *)
Lemma random_binary_to_decimal_bits (rng : nat -> bool) (n_digits : Z) :
  random_binary_to_decimal rng n_digits =
  match draws rng n_digits with
  | [] => Some (inl ValueError)
  | bs => Some (inr (join (map bit_str bs), bits_value bs))
  end.
Proof.
  unfold random_binary_to_decimal, int_base2.
  destruct (draws rng n_digits) as [|b bs]; [reflexivity|].
  rewrite join_bits_cons.
  rewrite <- (join_bits_cons b bs), binary_value_bits. reflexivity.
Qed.

End BinaryFacts.

(** X22: for [n_digits <= 0], [random_binary_to_decimal] raises
    [ValueError] (the bit string is empty and [int('', 2)] rejects it).
    For [n_digits >= 1] it returns, whatever the random draws, a string of
    exactly [n_digits] characters and a number in [0, 2^n_digits). *)
Theorem random_binary_to_decimal_range (rng : nat -> bool) (n_digits : Z) :
  (n_digits <= 0 -> random_binary_to_decimal rng n_digits = Some (inl ValueError)) /\
  (1 <= n_digits ->
     exists bstr v,
       random_binary_to_decimal rng n_digits = Some (inr (bstr, v)) /\
       String.length bstr = Z.to_nat n_digits /\
       0 <= v < 2 ^ n_digits).
Proof.
  rewrite random_binary_to_decimal_bits.
  pose proof (draws_length rng n_digits) as HL.
  split.
  - intros H. destruct (draws rng n_digits); [reflexivity|simpl in HL; lia].
  - intros H. destruct (draws rng n_digits) as [|b bs] eqn:E; [simpl in HL; lia|].
    eexists _, _. split; [reflexivity|]. split.
    + by rewrite join_bits_length.
    + pose proof (bits_value_bounds (b :: bs)) as B. unfold len in B.
      rewrite HL, Z2Nat.id in B by lia. exact B.
Qed.

(** X23: the string and the number returned by [random_binary_to_decimal]
    tell the same bits: the character at position [i] is the digit drawn at
    the [i]-th draw, and it is the binary digit of weight [2^(n_digits-1-i)]
    of the number.  So the number determines the string, and conversely. *)
Theorem random_binary_to_decimal_digits (rng : nat -> bool) (n_digits : Z)
    (bstr : string) (v : Z) (i : nat) :
  random_binary_to_decimal rng n_digits = Some (inr (bstr, v)) ->
  (i < Z.to_nat n_digits)%nat ->
  char_at bstr i = Some (bit_char (rng i)) /\
  Z.testbit v (n_digits - 1 - Z.of_nat i) = rng i.
Proof.
  rewrite random_binary_to_decimal_bits. intros H Hi.
  pose proof (draws_length rng n_digits) as HL.
  pose proof (draws_lookup rng n_digits i Hi) as Hb.
  destruct (draws rng n_digits) as [|b bs] eqn:E; [discriminate|].
  injection H as <- <-. split.
  - pose proof (join_bits_char_at (b :: bs) i) as C. rewrite Hb in C. exact C.
  - pose proof (bits_value_testbit (b :: bs) i (rng i) Hb) as T.
    unfold len in T. rewrite HL, Z2Nat.id in T by lia. exact T.
Qed.

Lemma random_binary_to_decimal_digits_witness :
  char_at "1010" 2 = Some (bit_char (Nat.even 2)) /\
  Z.testbit 10 (4 - 1 - Z.of_nat 2) = Nat.even 2.
Proof.
  apply (random_binary_to_decimal_digits Nat.even 4 "1010" 10 2); [reflexivity|lia].
Defined.

Example random_binary_to_decimal_empty :
  random_binary_to_decimal (fun _ => true) 0 = Some (inl ValueError).
Proof. reflexivity. Qed.

(** * The scraper *)

Import Html.

Section ScrapeFacts.

Lemma until_lt_no_lt (s : string) : no_lt (fst (until_lt s)) = true.
Proof.
  induction s as [|c s IH]; simpl; [reflexivity|].
  destruct (is_lt c) eqn:E; simpl; [reflexivity|]. by rewrite E, IH.
Qed.

Lemma no_lt_lstrip (s : string) : no_lt s = true -> no_lt (lstrip s) = true.
Proof.
  induction s as [|c s IH]; simpl; [done|].
  intros H. apply andb_true_iff in H as [Hc Hs].
  destruct (is_space c); [by apply IH|]. simpl. by rewrite Hc, Hs.
Qed.

Lemma last_char_shape (s : string) :
  s <> EmptyString -> no_lt s = true ->
  String.length (last_char s) = 1%nat /\ no_lt (last_char s) = true.
Proof.
  induction s as [|c s IH]; [done|]. intros _ H.
  simpl in H. apply andb_true_iff in H as [Hc Hs].
  destruct s as [|c' s]; [simpl; by rewrite Hc|].
  change (last_char (String c (String c' s))) with (last_char (String c' s)).
  by apply IH.
Qed.

(** What a captured group looks like. *)
Lemma cell_shape (s cap rest : string) :
  cell s = Some (cap, rest) ->
  cap <> EmptyString /\ no_lt cap = true /\
  (lstrip cap = cap \/ String.length cap = 1%nat).
Proof.
  unfold cell. pose proof (until_lt_no_lt s) as Hu.
  destruct (fst (until_lt s)) as [|c u] eqn:E; [discriminate|].
  assert (Hne : String c u <> EmptyString) by done.
  revert Hu Hne. generalize (String c u). intros U Hu Hne.
  destruct (lstrip U) as [|c' v] eqn:L; intros [= <- _].
  - destruct (last_char_shape U Hne Hu) as [H1 H2].
    split; [|split; [exact H2|by right]].
    intros H0. by rewrite H0 in H1.
  - split; [done|]. split.
    + rewrite <- L. by apply no_lt_lstrip.
    + left. rewrite <- L. apply lstrip_idem.
Qed.

Lemma match_row_shape (s row rest : string) :
  match_row s = Some (row, rest) ->
  row <> EmptyString /\ no_lt row = true /\
  (lstrip row = row \/ String.length row = 1%nat).
Proof.
  unfold match_row. intros H.
  repeat (apply bind_Some in H as (? & ? & H)).
  injection H as <- _.
  match goal with H : cell _ = Some ?c |- context [fst ?c] =>
    destruct c as [cap r]; by apply cell_shape in H end.
Qed.

Lemma findall_rows_matched (s : string) (skip : nat) (row : string) :
  In row (findall_rows skip s) ->
  exists s' rest, match_row s' = Some (row, rest).
Proof.
  revert skip. induction s as [|c s IH]; intros skip; simpl; [intros []|].
  destruct skip as [|k]; [|apply IH].
  destruct (match_row (String c s)) as [[r rest]|] eqn:E; [|apply IH].
  intros [<-|H]; [by eexists _, _|]. by apply IH in H.
Qed.

End ScrapeFacts.

(** X24: every row that [extract_color_rows] returns is a non-empty text
    without ["<"], and it does not start with white space unless it is one
    single white-space character (the content of a blank cell). *)
Theorem extract_color_rows_shape (html row : string) :
  In row (extract_color_rows html) ->
  row <> EmptyString /\ no_lt row = true /\
  (lstrip row = row \/ String.length row = 1%nat).
Proof.
  intros H. apply findall_rows_matched in H as (s' & rest & H).
  by apply match_row_shape in H.
Qed.

Lemma extract_color_rows_shape_witness :
  "RED, blue"%string <> EmptyString /\ no_lt "RED, blue" = true /\
  (lstrip "RED, blue" = "RED, blue"%string \/ String.length "RED, blue" = 1%nat).
Proof.
  apply (extract_color_rows_shape
           "<TR><td>MONDAY</td> <td>  RED, blue</td></tr>"%string).
  by left.
Defined.

Section RoundTrip.

Open Scope string_scope.

Lemma str_app_assoc (a b c : string) : (a +:+ b) +:+ c = a +:+ (b +:+ c).
Proof.
  induction a as [|x a IH]; [reflexivity|].
  change (String x ((a +:+ b) +:+ c) = String x (a +:+ (b +:+ c))). by f_equal.
Qed.

Lemma str_app_length (a b : string) :
  String.length (a +:+ b) = (String.length a + String.length b)%nat.
Proof.
  induction a as [|x a IH]; [reflexivity|].
  change (S (String.length (a +:+ b)) = S (String.length a + String.length b)).
  by f_equal.
Qed.

Lemma upper_char_lt (c : ascii) :
  Ascii.eqb (upper_char "<") (upper_char c) = is_lt c.
Proof. destruct c as [[] [] [] [] [] [] [] []]; reflexivity. Qed.

Lemma until_lt_app (u r : string) :
  no_lt u = true -> until_lt (u +:+ String "<" r) = (u, String "<" r).
Proof.
  induction u as [|c u IH]; simpl; [reflexivity|].
  intros H. apply andb_true_iff in H as [Hc Hu].
  apply negb_true_iff in Hc. rewrite Hc. by rewrite (IH Hu).
Qed.

Lemma cell_of_cell_text (u r : string) :
  cell_text u = true -> cell (u +:+ String "<" r) = Some (u, String "<" r).
Proof.
  intros H. destruct u as [|c u]; [discriminate|].
  unfold cell_text in H. apply andb_true_iff in H as [Hc Hu].
  apply negb_true_iff in Hc.
  unfold cell. rewrite (until_lt_app _ r Hu). cbn [fst snd lstrip].
  by rewrite Hc.
Qed.

(** A well-formed row is matched as a whole and gives its second cell. *)
Lemma match_row_table_row (name colors tail : string) :
  cell_text name = true -> cell_text colors = true ->
  match_row (table_row name colors +:+ tail) = Some (colors, tail).
Proof.
  intros Hn Hc. unfold table_row. rewrite !str_app_assoc. unfold match_row.
  apply bind_Some. eexists. split; [reflexivity|].
  apply bind_Some. eexists. split; [reflexivity|].
  apply bind_Some. eexists. split; [exact (cell_of_cell_text name _ Hn)|].
  apply bind_Some. eexists. split; [reflexivity|].
  apply bind_Some. eexists. split; [reflexivity|].
  apply bind_Some. eexists. split; [exact (cell_of_cell_text colors _ Hc)|].
  apply bind_Some. eexists. split; [reflexivity|].
  apply bind_Some. eexists. split; [|reflexivity].
  cbn [snd]. destruct tail; reflexivity.
Qed.

Lemma findall_rows_skip (pre rest : string) :
  findall_rows (String.length pre) (pre +:+ rest) = findall_rows 0 rest.
Proof. induction pre as [|c pre IH]; simpl; [reflexivity|exact IH]. Qed.

Lemma match_row_needs_lt (c : ascii) (s : string) :
  is_lt c = false -> match_row (String c s) = None.
Proof.
  intros H. unfold match_row. cbn [match_literal]. by rewrite upper_char_lt, H.
Qed.

Lemma findall_rows_no_lt (sep rest : string) :
  no_lt sep = true -> findall_rows 0 (sep +:+ rest) = findall_rows 0 rest.
Proof.
  induction sep as [|c sep IH]; simpl; [reflexivity|].
  intros H. apply andb_true_iff in H as [Hc Hs]. apply negb_true_iff in Hc.
  rewrite match_row_needs_lt by exact Hc. by apply IH.
Qed.

Lemma findall_rows_table_row (name colors tail : string) :
  cell_text name = true -> cell_text colors = true ->
  findall_rows 0 (table_row name colors +:+ tail) = colors :: findall_rows 0 tail.
Proof.
  intros Hn Hc.
  pose proof (match_row_table_row name colors tail Hn Hc) as M.
  set (pre := "tr><td>" +:+ name +:+ "</td><td>" +:+ colors +:+ "</td></tr>").
  change (table_row name colors +:+ tail) with (String "<" (pre +:+ tail)) in *.
  cbn [findall_rows]. rewrite M. f_equal.
  rewrite str_app_length.
  replace (String.length pre + String.length tail - String.length tail)%nat
    with (String.length pre) by lia.
  apply findall_rows_skip.
Qed.

End RoundTrip.

(** X25: scraping gives back what a table holds.  For a document made of
    well-formed rows [<tr><td>name</td><td>colors</td></tr>], each followed
    by the same text without ["<"] (a line break, say), where the cell
    texts are non-empty, hold no ["<"] and do not start with white space,
    [extract_color_rows] returns the second cells in order; and the
    frequency table computed from them counts the colour names of these
    cells. *)
Theorem extract_color_rows_table (cells : list (string * string)) (sep : string) :
  no_lt sep = true ->
  Forall (fun nc => cell_text (fst nc) = true /\ cell_text (snd nc) = true) cells ->
  extract_color_rows
    (join (map (fun nc => table_row (fst nc) (snd nc) +:+ sep) cells))
  = map snd cells /\
  forall C,
    counter_get
      (Counter (flatten_colors (extract_color_rows
         (join (map (fun nc => table_row (fst nc) (snd nc) +:+ sep) cells))))) C
    = occurrences C (map snd cells).
Proof.
  intros Hsep Hcells.
  assert (E : extract_color_rows
                (join (map (fun nc => table_row (fst nc) (snd nc) +:+ sep) cells))
              = map snd cells).
  { unfold extract_color_rows.
    induction Hcells as [|[name colors] cells [Hn Hc] _ IH]; [reflexivity|].
    cbn [map join fold_right fst snd].
    change (String.append (table_row name colors +:+ sep) ?t)
      with ((table_row name colors +:+ sep) +:+ t).
    rewrite str_app_assoc, (findall_rows_table_row _ _ _ Hn Hc).
    rewrite (findall_rows_no_lt _ _ Hsep). f_equal. exact IH. }
  split; [exact E|]. intros C. rewrite E.
  destruct (Counter_invariant (flatten_colors (map snd cells))) as (_ & _ & _ & G).
  rewrite G. apply occurrences_flat.
Qed.

Lemma extract_color_rows_table_witness :
  extract_color_rows
    (join (map (fun nc => table_row (fst nc) (snd nc) +:+ " ")
               [("MONDAY", "GREEN, blew"); ("TUESDAY", "RED")]))%string
  = map snd [("MONDAY", "GREEN, blew"); ("TUESDAY", "RED")]%string.
Proof.
  apply (extract_color_rows_table
           [("MONDAY", "GREEN, blew"); ("TUESDAY", "RED")]%string " "%string).
  - reflexivity.
  - repeat constructor.
Defined.
